(** * The translation handler of chinese_dictionary (src/api_handler.py)

    A shallow embedding of [TranslationAPIHandler]: the cache, the rate
    limiter, the retrying HTTP session, the four provider adapters, the
    googletrans fallback, [translate_text], [translate_batch],
    [clear_cache] and [get_cache_stats].

    Python values are modelled as follows.
    - [str] is a list of Unicode code points ([N]), lone surrogates among
      them: [encode('utf-8')] and [quote] raise on a string that holds
      one.
    - the cache ([Dict[str, str]]) is a [gmap str str].
    - time is counted in milliseconds ([Z]): [min_request_interval] is 500.
    - methods of the handler are computations in a state-and-exception
      monad over the handler's fields, the outside world (network,
      googletrans, clock, disk) and a log of the actions performed: cache
      lookups and stores, clock readings, pauses, invocations of the
      adapters, requests put on the wire, writes and removals of the cache
      file.
    - the outside world is scripted: it holds the answers the network,
      googletrans, the clock and the disk give to the successive calls, so
      that a property proved for every script holds whatever they answer.
    Calls to [logger] are left out. *)

From Stdlib Require Import ZArith NArith List String Ascii Lia Bool.
From stdpp Require Import base option list gmap fin_maps pretty.

Local Open Scope Z_scope.
Set Warnings "-register-all".

(** ** Python strings *)

Module PyStr.

Abbreviation str := (list N).

(** Decoding of a UTF-8 literal of this file into code points. *)
Fixpoint utf8_decode (bs : list N) : str :=
  match bs with
  | [] => []
  | b :: r =>
      if (b <? 0x80)%N then b :: utf8_decode r
      else if (b <? 0xE0)%N then
        match r with
        | c1 :: r1 => ((b - 0xC0) * 64 + (c1 - 0x80))%N :: utf8_decode r1
        | _ => []
        end
      else if (b <? 0xF0)%N then
        match r with
        | c1 :: c2 :: r2 =>
            ((b - 0xE0) * 4096 + (c1 - 0x80) * 64 + (c2 - 0x80))%N :: utf8_decode r2
        | _ => []
        end
      else
        match r with
        | c1 :: c2 :: c3 :: r3 =>
            ((b - 0xF0) * 262144 + (c1 - 0x80) * 4096 + (c2 - 0x80) * 64 + (c3 - 0x80))%N
              :: utf8_decode r3
        | _ => []
        end
  end.

Definition u (s : string) : str :=
  utf8_decode (map N_of_ascii (list_ascii_of_string s)).

(** [s.encode('utf-8')] *)
Definition utf8_encode_char (c : N) : list N :=
  if (c <? 0x80)%N then [c]
  else if (c <? 0x800)%N then [0xC0 + c / 64; 0x80 + c mod 64]%N
  else if (c <? 0x10000)%N then
    [0xE0 + c / 4096; 0x80 + (c / 64) mod 64; 0x80 + c mod 64]%N
  else
    [0xF0 + c / 262144; 0x80 + (c / 4096) mod 64; 0x80 + (c / 64) mod 64; 0x80 + c mod 64]%N.

Definition utf8_encode (s : str) : list N := flat_map utf8_encode_char s.

(** [c.isspace()], the characters removed by [str.strip()]. *)
Definition isspace (c : N) : bool :=
  ((0x09 <=? c) && (c <=? 0x0D) || (0x1C <=? c) && (c <=? 0x20)
   || (c =? 0x85) || (c =? 0xA0) || (c =? 0x1680)
   || (0x2000 <=? c) && (c <=? 0x200A)
   || (c =? 0x2028) || (c =? 0x2029) || (c =? 0x202F) || (c =? 0x205F)
   || (c =? 0x3000))%N.

Fixpoint lstrip (s : str) : str :=
  match s with
  | c :: r => if isspace c then lstrip r else s
  | [] => []
  end.

Definition rstrip (s : str) : str := rev (lstrip (rev s)).

(** [s.strip()] *)
Definition strip (s : str) : str := rstrip (lstrip s).

(** Truth value of a string: [if s:] *)
Definition truthy (s : str) : bool :=
  match s with [] => false | _ => true end.

Definition str_eqb (a b : str) : bool := bool_decide (a = b).

(** [needle in hay], for two strings *)
Fixpoint is_prefix (p s : str) : bool :=
  match p, s with
  | [], _ => true
  | a :: p', b :: s' => (a =? b)%N && is_prefix p' s'
  | _ :: _, [] => false
  end.

Fixpoint substring_of (needle hay : str) : bool :=
  is_prefix needle hay ||
  match hay with
  | [] => false
  | _ :: hay' => substring_of needle hay'
  end.

(** [str(n)] for an integer *)
Definition str_of_Z (n : Z) : str := u (pretty n).

Definition hex_digit (upper : bool) (d : N) : N :=
  (if d <? 10 then 48 + d else (if upper then 55 else 87) + d)%N.

Definition hex2 (upper : bool) (b : N) : list N :=
  [hex_digit upper (b / 16); hex_digit upper (b mod 16)]%N.

(** [urllib.parse.quote_from_bytes(bs)] with its default [safe='/'] *)
Definition quote_safe (b : N) : bool :=
  ((65 <=? b) && (b <=? 90) || (97 <=? b) && (b <=? 122)
   || (48 <=? b) && (b <=? 57)
   || (b =? 95) || (b =? 46) || (b =? 45) || (b =? 126) || (b =? 47))%N.

Definition quote_from_bytes (bs : list N) : str :=
  flat_map (fun b => if quote_safe b then [b] else 37%N :: hex2 true b) bs.

End PyStr.
Export PyStr.

(** ** hashlib.md5 *)

Module MD5.

Definition mask32 : Z := 0xFFFFFFFF.
Definition w32 (x : Z) : Z := Z.land x mask32.
Definition rotl (x c : Z) : Z :=
  w32 (Z.lor (Z.shiftl x c) (Z.shiftr x (32 - c))).

Definition K : list Z :=
  [3614090360; 3905402710; 606105819; 3250441966; 4118548399; 1200080426;
   2821735955; 4249261313; 1770035416; 2336552879; 4294925233; 2304563134;
   1804603682; 4254626195; 2792965006; 1236535329; 4129170786; 3225465664;
   643717713; 3921069994; 3593408605; 38016083; 3634488961; 3889429448;
   568446438; 3275163606; 4107603335; 1163531501; 2850285829; 4243563512;
   1735328473; 2368359562; 4294588738; 2272392833; 1839030562; 4259657740;
   2763975236; 1272893353; 4139469664; 3200236656; 681279174; 3936430074;
   3572445317; 76029189; 3654602809; 3873151461; 530742520; 3299628645;
   4096336452; 1126891415; 2878612391; 4237533241; 1700485571; 2399980690;
   4293915773; 2240044497; 1873313359; 4264355552; 2734768916; 1309151649;
   4149444226; 3174756917; 718787259; 3951481745].

Definition shifts : list Z :=
  [7; 12; 17; 22; 7; 12; 17; 22; 7; 12; 17; 22; 7; 12; 17; 22;
   5; 9; 14; 20; 5; 9; 14; 20; 5; 9; 14; 20; 5; 9; 14; 20;
   4; 11; 16; 23; 4; 11; 16; 23; 4; 11; 16; 23; 4; 11; 16; 23;
   6; 10; 15; 21; 6; 10; 15; 21; 6; 10; 15; 21; 6; 10; 15; 21].

Definition nthZ (l : list Z) (i : Z) : Z := nth (Z.to_nat i) l 0.

Record regs := Regs { rA : Z; rB : Z; rC : Z; rD : Z }.

Definition init_regs : regs := Regs 0x67452301 0xefcdab89 0x98badcfe 0x10325476.

Definition step (M : list Z) (r : regs) (i : Z) : regs :=
  let '(Regs a b c d) := r in
  let nb := Z.lxor b mask32 in
  let nd := Z.lxor d mask32 in
  let '(f, g) :=
    if i <? 16 then (Z.lor (Z.land b c) (Z.land nb d), i)
    else if i <? 32 then (Z.lor (Z.land d b) (Z.land nd c), (5 * i + 1) mod 16)
    else if i <? 48 then (Z.lxor (Z.lxor b c) d, (3 * i + 5) mod 16)
    else (Z.lxor c (Z.lor b nd), (7 * i) mod 16) in
  let f' := w32 (f + a + nthZ K i + nthZ M g) in
  Regs d (w32 (b + rotl f' (nthZ shifts i))) b c.

Fixpoint le_words (bs : list Z) : list Z :=
  match bs with
  | b0 :: b1 :: b2 :: b3 :: r =>
      (b0 + 256 * b1 + 65536 * b2 + 16777216 * b3) :: le_words r
  | _ => []
  end.

Definition process_chunk (r : regs) (chunk : list Z) : regs :=
  let M := le_words chunk in
  let r' := fold_left (step M) (map Z.of_nat (seq 0 64)) r in
  Regs (w32 (rA r + rA r')) (w32 (rB r + rB r')) (w32 (rC r + rC r')) (w32 (rD r + rD r')).

Fixpoint chunks (n : nat) (bs : list Z) : list (list Z) :=
  match n with
  | O => []
  | S n' => firstn 64 bs :: chunks n' (skipn 64 bs)
  end.

Definition le_bytes (n : nat) (x : Z) : list Z :=
  map (fun i => Z.land (Z.shiftr x (8 * Z.of_nat i)) 255) (seq 0 n).

Definition pad (msg : list Z) : list Z :=
  let len := Z.of_nat (length msg) in
  let zeros := Z.to_nat ((55 - len) mod 64) in
  msg ++ [128] ++ repeat 0 zeros ++ le_bytes 8 (8 * len).

Definition digest (msg : list Z) : list Z :=
  let p := pad msg in
  let r := fold_left process_chunk (chunks (length p / 64) p) init_regs in
  le_bytes 4 (rA r) ++ le_bytes 4 (rB r) ++ le_bytes 4 (rC r) ++ le_bytes 4 (rD r).

(** [hashlib.md5(data).hexdigest()] *)
Definition hexdigest (data : list N) : str :=
  flat_map (fun b => hex2 false (Z.to_N b)) (digest (map Z.of_N data)).

End MD5.

(** ** JSON values, as [response.json()] returns them

    A number is only ever compared with 200 by the handler, so it is kept
    as an integer. *)

Inductive Json :=
  | JNull
  | JBool (b : bool)
  | JNum (n : Z)
  | JStr (s : str)
  | JArr (l : list Json)
  | JObj (d : list (str * Json)).

Definition type_name (j : Json) : str :=
  match j with
  | JNull => u "NoneType"
  | JBool _ => u "bool"
  | JNum _ => u "int"
  | JStr _ => u "str"
  | JArr _ => u "list"
  | JObj _ => u "dict"
  end.

Fixpoint assoc (k : str) (d : list (str * Json)) : option Json :=
  match d with
  | [] => None
  | (k', v) :: d' => if str_eqb k' k then Some v else assoc k d'
  end.

(** ** Exceptions

    An exception is its class name and its message ([str(e)]); the text of
    the messages of the interpreter and of the libraries is abridged. *)

Record exn := Exn { exn_class : str; exn_msg : str }.

Definition AttributeError (j : Json) (attr : string) : exn :=
  Exn (u "AttributeError")
      ([39%N] ++ type_name j ++ u "' object has no attribute '" ++ u attr ++ [39%N]).

Definition TypeError (msg : str) : exn := Exn (u "TypeError") msg.

(** ** The handler, the outside world and the log *)

(** An entry of [self.api_endpoints]. *)
Record Endpoint := { url : str; type : str; description : str }.

Inductive Request :=
  | GET (endpoint_url : str) (params : list (str * str)) (timeout : Z)
  | POST (endpoint_url : str) (json : Json) (timeout : Z).

(** A response: [json] is [None] when the body is not JSON, in which case
    [response.json()] raises. *)
Module Resp.
Record t := { status_code : Z; text : str; json : option Json }.
End Resp.
Abbreviation Response := Resp.t.

(** What the network does with one request put on the wire. *)
Inductive Reply :=
  | Answer (r : Response)
  | NetworkError (e : exn).

(** What [googletrans] does: the import fails, [translate] raises, or it
    returns a result ([None], or an object whose [text] may be [None]). *)
Inductive GtReply :=
  | GtImportError
  | GtRaises (e : exn)
  | GtResult (result : option (option str)).

Inductive DiskReply :=
  | DiskOk
  | DiskError (e : exn).

(** [urllib3.util.retry.Retry], the fields [_create_session] sets.
    [total] is urllib3's count of retries allowed after the first
    request. *)
Record Retry := {
  total : nat;
  backoff_factor : Z;
  status_forcelist : list Z;
  allowed_methods : list str
}.

(** The fields of [TranslationAPIHandler]; [timeout] is in seconds, as
    [requests] takes it, the two fields of the rate limiter are in
    milliseconds. *)
Record Handler := {
  api_endpoints : list Endpoint;
  source_lang : str;
  target_lang : str;
  timeout : Z;
  max_retries : nat;
  cache_dir : str;
  cache_file : str;
  cache : gmap str str;
  last_request_time : Z;
  min_request_interval : Z;
  session : Retry
}.

(** The outside world: scripts of what the network, googletrans, the clock
    and the disk will answer to the successive calls, and the content of
    the cache file when it exists. *)
Record World := {
  net : list Reply;
  googletrans : list GtReply;
  clock : list Z;
  disk : list DiskReply;
  file : option (list N)
}.

(** The actions of the handler, in the order they happen. *)
Inductive Event :=
  | CacheLookup (key : str)
  | CacheStore (key value : str)
  | CacheClear
  | TimeRead (t : Z)
  | Sleep (ms : Z)
  | TryEndpoint (e : Endpoint)
  | HttpSend (r : Request)
  | CallGoogletrans (text : str)
  | FileWrite (content : list N)
  | FileRemove.

Record State := { self : Handler; world : World; log : list Event }.

Definition with_cache (c : gmap str str) (h : Handler) : Handler :=
  {| api_endpoints := api_endpoints h; source_lang := source_lang h;
     target_lang := target_lang h; timeout := timeout h;
     max_retries := max_retries h; cache_dir := cache_dir h;
     cache_file := cache_file h;
     cache := c; last_request_time := last_request_time h;
     min_request_interval := min_request_interval h; session := session h |}.

Definition with_last_request_time (t : Z) (h : Handler) : Handler :=
  {| api_endpoints := api_endpoints h; source_lang := source_lang h;
     target_lang := target_lang h; timeout := timeout h;
     max_retries := max_retries h; cache_dir := cache_dir h;
     cache_file := cache_file h;
     cache := cache h; last_request_time := t;
     min_request_interval := min_request_interval h; session := session h |}.

Definition with_net (l : list Reply) (w : World) : World :=
  {| net := l; googletrans := googletrans w; clock := clock w;
     disk := disk w; file := file w |}.

Definition with_googletrans (l : list GtReply) (w : World) : World :=
  {| net := net w; googletrans := l; clock := clock w;
     disk := disk w; file := file w |}.

Definition with_clock (l : list Z) (w : World) : World :=
  {| net := net w; googletrans := googletrans w; clock := l;
     disk := disk w; file := file w |}.

Definition with_disk (l : list DiskReply) (w : World) : World :=
  {| net := net w; googletrans := googletrans w; clock := clock w;
     disk := l; file := file w |}.

Definition with_file (f : option (list N)) (w : World) : World :=
  {| net := net w; googletrans := googletrans w; clock := clock w;
     disk := disk w; file := f |}.

(** ** The monad of the handler's methods *)

Inductive result (A : Type) :=
  | Ret (a : A)
  | Raise (e : exn).
Arguments Ret {A} a.
Arguments Raise {A} e.

(** [s.encode('utf-8')]: a Python string may hold lone surrogates (U+D800
    to U+DFFF), which UTF-8 does not encode. *)
Definition is_surrogate (c : N) : bool := ((0xD800 <=? c) && (c <=? 0xDFFF))%N.

Definition UnicodeEncodeError : exn :=
  Exn (u "UnicodeEncodeError")
      (u "'utf-8' codec can't encode character: surrogates not allowed").

Definition encode_utf8 (s : str) : result (list N) :=
  if existsb is_surrogate s then Raise UnicodeEncodeError
  else Ret (utf8_encode s).

(** [urllib.parse.quote(s)]: the string is encoded in UTF-8, then quoted. *)
Definition quote (s : str) : result str :=
  match encode_utf8 s with
  | Ret data => Ret (quote_from_bytes data)
  | Raise e => Raise e
  end.

Definition M (A : Type) : Type := State -> result A * State.

Definition ret {A} (a : A) : M A := fun st => (Ret a, st).

Definition raise {A} (e : exn) : M A := fun st => (Raise e, st).

(** The result of a computation that does not touch the state. *)
Definition lift {A} (r : result A) : M A := fun st => (r, st).

Definition bind {A B} (m : M A) (k : A -> M B) : M B :=
  fun st =>
    match m st with
    | (Ret a, st') => k a st'
    | (Raise e, st') => (Raise e, st')
    end.

(** [try: m except Exception as e: h e] *)
Definition try_except {A} (m : M A) (h : exn -> M A) : M A :=
  fun st =>
    match m st with
    | (Ret a, st') => (Ret a, st')
    | (Raise e, st') => h e st'
    end.

Notation "x <- m ;; k" := (bind m (fun x => k))
  (at level 100, m at next level, right associativity).
Notation "m ;; k" := (bind m (fun _ => k))
  (at level 100, right associativity).

Definition get_self : M Handler := fun st => (Ret (self st), st).

Definition update_self (f : Handler -> Handler) : M unit :=
  fun st => (Ret tt, {| self := f (self st); world := world st; log := log st |}).

Definition get_world : M World := fun st => (Ret (world st), st).

Definition update_world (f : World -> World) : M unit :=
  fun st => (Ret tt, {| self := self st; world := f (world st); log := log st |}).

Definition emit (e : Event) : M unit :=
  fun st => (Ret tt, {| self := self st; world := world st; log := log st ++ [e] |}).

(** ** Calls into the outside world *)

Definition unreachable : exn :=
  Exn (u "ConnectionError") (u "Network is unreachable").

(** The next answer of the network; an exhausted script is a network that
    can no longer be reached. *)
Definition next_reply : M Reply :=
  w <- get_world ;;
  match net w with
  | [] => ret (NetworkError unreachable)
  | r :: rest => update_world (with_net rest) ;; ret r
  end.

Definition next_googletrans : M GtReply :=
  w <- get_world ;;
  match googletrans w with
  | [] => ret GtImportError
  | r :: rest => update_world (with_googletrans rest) ;; ret r
  end.

Definition next_disk : M DiskReply :=
  w <- get_world ;;
  match disk w with
  | [] => ret DiskOk
  | r :: rest => update_world (with_disk rest) ;; ret r
  end.

(** [time.time()] *)
Definition time_time : M Z :=
  w <- get_world ;;
  let t := match clock w with [] => 0 | t :: _ => t end in
  update_world (with_clock (tail (clock w))) ;;
  emit (TimeRead t) ;;
  ret t.

(** [time.sleep(ms)] *)
Definition time_sleep (ms : Z) : M unit := emit (Sleep ms).

(** [os.path.exists(self.cache_file)] *)
Definition path_exists : M bool :=
  w <- get_world ;; ret (bool_decide (is_Some (file w))).

(** [os.path.getsize(self.cache_file)], called on an existing file *)
Definition path_getsize : M nat :=
  w <- get_world ;; ret (from_option length O (file w)).

(** [os.makedirs], [open(.., 'w')] and the write: the disk accepts the
    whole content or fails, leaving the file as it was. *)
Definition write_file (content : list N) : M unit :=
  emit (FileWrite content) ;;
  d <- next_disk ;;
  match d with
  | DiskOk => update_world (with_file (Some content))
  | DiskError e => raise e
  end.

(** [os.remove(self.cache_file)] *)
Definition os_remove : M unit :=
  emit FileRemove ;;
  d <- next_disk ;;
  match d with
  | DiskOk => update_world (with_file None)
  | DiskError e => raise e
  end.

(** ** The session: requests over urllib3's [Retry]

    [urlopen] sends the request; a status of [status_forcelist] (for an
    allowed method) or a network error consumes one retry and sends again;
    when no retry is left the error is raised. [retries] is what remains
    of [Retry.total]. The pauses between attempts are not modelled, and
    responses carry no Retry-After header. *)

Definition method_of (r : Request) : str :=
  match r with
  | GET _ _ _ => u "GET"
  | POST _ _ _ => u "POST"
  end.

Definition is_retry (rt : Retry) (req : Request) (status : Z) : bool :=
  bool_decide (method_of req ∈ allowed_methods rt)
  && bool_decide (status ∈ status_forcelist rt).

Definition RetryError : exn :=
  Exn (u "RetryError") (u "Max retries exceeded (too many error responses)").

Fixpoint urlopen (retries : nat) (rt : Retry) (req : Request) {struct retries}
  : M Response :=
  emit (HttpSend req) ;;
  reply <- next_reply ;;
  match reply with
  | Answer response =>
      if is_retry rt req (Resp.status_code response) then
        match retries with
        | O => raise RetryError
        | S n => urlopen n rt req
        end
      else ret response
  | NetworkError e =>
      match retries with
      | O => raise e
      | S n => urlopen n rt req
      end
  end.

(** [_create_session]: the retry strategy mounted on the session. *)
Definition _create_session (max_retries : nat) : Retry :=
  {| total := max_retries;
     backoff_factor := 1;
     status_forcelist := [429; 500; 502; 503; 504];
     allowed_methods := [u "GET"; u "POST"] |}.

(** [self.session.get(url, params=params, timeout=timeout)] *)
Definition session_get (endpoint_url : str) (params : list (str * str))
    (timeout : Z) : M Response :=
  h <- get_self ;;
  urlopen (total (session h)) (session h) (GET endpoint_url params timeout).

(** [self.session.post(url, json=data, timeout=timeout)] *)
Definition session_post (endpoint_url : str) (data : Json) (timeout : Z)
  : M Response :=
  h <- get_self ;;
  urlopen (total (session h)) (session h) (POST endpoint_url data timeout).

(** ** Operations on the values a response carries *)

(** [response.json()] *)
Definition response_json (r : Response) : M Json :=
  match Resp.json r with
  | Some j => ret j
  | None => raise (Exn (u "JSONDecodeError") (u "Expecting value"))
  end.

(** [d.get(k, default)] *)
Definition dict_get (d : Json) (k : str) (default : Json) : M Json :=
  match d with
  | JObj o => ret (from_option id default (assoc k o))
  | _ => raise (AttributeError d "get")
  end.

(** [j == n] for an integer [n] *)
Definition eq_int (j : Json) (n : Z) : bool :=
  match j with
  | JNum m => m =? n
  | JBool b => (if b then 1 else 0) =? n
  | _ => false
  end.

(** [j.strip()] *)
Definition attr_strip (j : Json) : M str :=
  match j with
  | JStr s => ret (strip s)
  | _ => raise (AttributeError j "strip")
  end.

(** [k in j] for a string [k] *)
Definition contains (k : str) (j : Json) : M bool :=
  match j with
  | JObj o => ret (bool_decide (is_Some (assoc k o)))
  | JArr l =>
      ret (existsb (fun x => match x with JStr s => str_eqb s k | _ => false end) l)
  | JStr s => ret (substring_of k s)
  | _ => raise (TypeError (u "argument of type '" ++ type_name j ++ u "' is not iterable"))
  end.

(** [j[k]] for a string [k] *)
Definition subscript (j : Json) (k : str) : M Json :=
  match j with
  | JObj o =>
      match assoc k o with
      | Some v => ret v
      | None => raise (Exn (u "KeyError") k)
      end
  | JArr _ => raise (TypeError (u "list indices must be integers or slices, not str"))
  | JStr _ => raise (TypeError (u "string indices must be integers"))
  | _ => raise (TypeError ([39%N] ++ type_name j ++ u "' object is not subscriptable"))
  end.

(** ** json.dump(self.cache, f, ensure_ascii=False, indent=2)

    The entries are written in the order of [map_to_list]; the handler
    only reads back the size of the file. *)

Definition json_escape (c : N) : str :=
  if (c =? 34)%N then [92; 34]%N
  else if (c =? 92)%N then [92; 92]%N
  else if (c =? 10)%N then [92; 110]%N
  else if (c =? 13)%N then [92; 114]%N
  else if (c =? 9)%N then [92; 116]%N
  else if (c =? 8)%N then [92; 98]%N
  else if (c =? 12)%N then [92; 102]%N
  else if (c <? 32)%N then [92; 117; 48; 48]%N ++ hex2 false c
  else [c].

Definition json_string (s : str) : str :=
  [34%N] ++ flat_map json_escape s ++ [34%N].

Fixpoint join (sep : str) (l : list str) : str :=
  match l with
  | [] => []
  | [x] => x
  | x :: r => x ++ sep ++ join sep r
  end.

Definition json_dumps (d : gmap str str) : str :=
  match map_to_list d with
  | [] => u "{}"
  | items =>
      u "{" ++ [10%N]
      ++ join (u "," ++ [10%N])
           (map (fun kv => u "  " ++ json_string kv.1 ++ u ": " ++ json_string kv.2) items)
      ++ [10%N] ++ u "}"
  end.

(** [os.path.join(a, b)] for a relative [b], on POSIX *)
Definition path_join (a b : str) : str :=
  match last a with
  | None => b
  | Some c => if (c =? 47)%N then a ++ b else a ++ u "/" ++ b
  end.

Module BatchItem.
Record t := {
  index : Z;
  original : str;
  success : bool;
  translation : str;
  error : str;
  endpoint : str
}.
End BatchItem.

Module CacheStats.
Record t := {
  total_entries : nat;
  cache_file_size_bytes : nat;
  cache_file_exists : bool
}.
End CacheStats.

(** [str.lower()] on the ASCII letters, for running the handler. *)
Definition ascii_lower (s : str) : str :=
  map (fun c => if ((65 <=? c) && (c <=? 90))%N then (c + 32)%N else c) s.

(** ** TranslationAPIHandler *)

Section TranslationAPIHandler.

(** [str.lower()]: a table of the Unicode database, left abstract. *)
Variable lower : str -> str.

(** [__init__], given the cache [_load_cache] has read. *)
Definition __init__ (cache_dir : str) (loaded : gmap str str) : Handler :=
  {| api_endpoints :=
       [ {| url := u "https://api.mymemory.translated.net/get";
            type := u "mymemory";
            description := u "MyMemory Free API" |};
         {| url := u "https://libretranslate.de/translate";
            type := u "libretranslate";
            description := u "LibreTranslate Germany" |};
         {| url := u "https://translate.argosopentech.com/translate";
            type := u "libretranslate";
            description := u "Argos Open Tech" |};
         {| url := u "https://lingva.ml/api/v1";
            type := u "lingva";
            description := u "Lingva Translate" |} ];
     source_lang := u "zh";
     target_lang := u "vi";
     timeout := 10;
     max_retries := 3;
     cache_dir := cache_dir;
     cache_file := path_join cache_dir (u "translation_cache.json");
     cache := loaded;
     last_request_time := 0;
     min_request_interval := 500;
     session := _create_session 3 |}.

Definition _save_cache : M unit :=
  try_except
    (h <- get_self ;;
     write_file (utf8_encode (json_dumps (cache h))))
    (fun _ => ret tt).

Definition _get_cache_key (text : str) : result str :=
  match encode_utf8 text with
  | Ret data => Ret (MD5.hexdigest data)
  | Raise e => Raise e
  end.

Definition _rate_limit : M unit :=
  current_time <- time_time ;;
  h <- get_self ;;
  let elapsed := current_time - last_request_time h in
  (if elapsed <? min_request_interval h
   then time_sleep (min_request_interval h - elapsed)
   else ret tt) ;;
  now <- time_time ;;
  update_self (with_last_request_time now).

Definition _try_mymemory (text endpoint_url : str) : M (bool * str) :=
  h <- get_self ;;
  let params :=
    [(u "q", text); (u "langpair", source_lang h ++ u "|" ++ target_lang h)] in
  response <- session_get endpoint_url params (timeout h) ;;
  let failed :=
    ret (false, u "MyMemory failed: " ++ str_of_Z (Resp.status_code response)) in
  if Resp.status_code response =? 200 then
    data <- response_json response ;;
    status <- dict_get data (u "responseStatus") JNull ;;
    if eq_int status 200 then
      rd <- dict_get data (u "responseData") (JObj []) ;;
      translated <- dict_get rd (u "translatedText") (JStr []) ;;
      translation <- attr_strip translated ;;
      if truthy translation && negb (str_eqb (lower translation) (lower text))
      then ret (true, translation)
      else failed
    else failed
  else failed.

Definition _try_libretranslate (text endpoint_url : str) : M (bool * str) :=
  h <- get_self ;;
  let data :=
    JObj [(u "q", JStr text); (u "source", JStr (source_lang h));
          (u "target", JStr (target_lang h)); (u "format", JStr (u "text"))] in
  response <- session_post endpoint_url data (timeout h) ;;
  let failed :=
    ret (false, u "LibreTranslate failed: " ++ str_of_Z (Resp.status_code response)
                ++ u " - " ++ firstn 100 (Resp.text response)) in
  if Resp.status_code response =? 200 then
    result <- response_json response ;;
    present <- contains (u "translatedText") result ;;
    if present : bool then
      v <- subscript result (u "translatedText") ;;
      translation <- attr_strip v ;;
      if truthy translation then ret (true, translation) else failed
    else failed
  else failed.

Definition _try_lingva (text endpoint_url : str) : M (bool * str) :=
  h <- get_self ;;
  encoded_text <- lift (quote text) ;;
  let url :=
    endpoint_url ++ u "/" ++ source_lang h ++ u "/" ++ target_lang h
    ++ u "/" ++ encoded_text in
  response <- session_get url [] (timeout h) ;;
  let failed :=
    ret (false, u "Lingva failed: " ++ str_of_Z (Resp.status_code response)) in
  if Resp.status_code response =? 200 then
    data <- response_json response ;;
    present <- contains (u "translation") data ;;
    if present : bool then
      v <- subscript data (u "translation") ;;
      translation <- attr_strip v ;;
      if truthy translation then ret (true, translation) else failed
    else failed
  else failed.

Definition _try_endpoint (text : str) (endpoint_config : Endpoint)
  : M (bool * str) :=
  emit (TryEndpoint endpoint_config) ;;
  let endpoint_type := type endpoint_config in
  let endpoint_url := url endpoint_config in
  try_except
    (if str_eqb endpoint_type (u "mymemory") then
       _try_mymemory text endpoint_url
     else if str_eqb endpoint_type (u "libretranslate") then
       _try_libretranslate text endpoint_url
     else if str_eqb endpoint_type (u "lingva") then
       _try_lingva text endpoint_url
     else ret (false, u "Unknown endpoint type: " ++ endpoint_type))
    (fun e => ret (false, u "Error: " ++ exn_msg e)).

Definition _try_googletrans_fallback (text : str) : M (bool * str) :=
  emit (CallGoogletrans text) ;;
  reply <- next_googletrans ;;
  match reply with
  | GtImportError => ret (false, u "googletrans not installed")
  | GtRaises e => ret (false, u "googletrans error: " ++ exn_msg e)
  | GtResult result =>
      let no_translation := ret (false, u "No translation returned") in
      match result with
      | Some (Some result_text) =>
          if truthy result_text && truthy (strip result_text) then
            let translation := strip result_text in
            if negb (str_eqb (lower translation) (lower text))
            then ret (true, translation)
            else no_translation
          else no_translation
      | _ => no_translation
      end
  end.

(** [cache_key in self.cache] and [self.cache[cache_key]] *)
Definition cache_lookup (cache_key : str) : M (option str) :=
  emit (CacheLookup cache_key) ;;
  h <- get_self ;;
  ret (cache h !! cache_key).

(** [self.cache[cache_key] = translation] *)
Definition cache_store (cache_key translation : str) : M unit :=
  emit (CacheStore cache_key translation) ;;
  update_self (fun h => with_cache (<[cache_key := translation]> (cache h)) h).

(** The loop of [translate_text] over [self.api_endpoints]: [Some] is the
    value the loop returns with, [None] means that every endpoint failed. *)
Fixpoint sweep (text cache_key : str) (endpoints : list Endpoint)
  : M (option (bool * str * str)) :=
  match endpoints with
  | [] => ret None
  | endpoint_config :: rest =>
      r <- try_except
             (let endpoint_desc := description endpoint_config in
              res <- _try_endpoint text endpoint_config ;;
              let '(success, translation) := res in
              if success : bool then
                cache_store cache_key translation ;;
                _save_cache ;;
                ret (Some (true, translation, endpoint_desc))
              else ret None)
             (fun _ => ret None) ;;
      match r with
      | Some out => ret (Some out)
      | None => sweep text cache_key rest
      end
  end.

Definition msg_empty_input : str := u "Văn bản đầu vào trống".

Definition msg_all_failed (text : str) : str :=
  u "Không thể dịch '" ++ text
  ++ u "' - tất cả API endpoints và fallback đều không khả dụng".

Definition translate_text (chinese_text : str) : M (bool * str * str) :=
  if negb (truthy chinese_text) || negb (truthy (strip chinese_text)) then
    ret (false, msg_empty_input, u "none")
  else
    let text := strip chinese_text in
    cache_key <- lift (_get_cache_key text) ;;
    cached <- cache_lookup cache_key ;;
    match cached with
    | Some translation => ret (true, translation, u "cache")
    | None =>
        _rate_limit ;;
        h <- get_self ;;
        swept <- sweep text cache_key (api_endpoints h) ;;
        match swept with
        | Some out => ret out
        | None =>
            r <- try_except
                   (res <- _try_googletrans_fallback text ;;
                    let '(success, translation) := res in
                    if success : bool then
                      cache_store cache_key translation ;;
                      _save_cache ;;
                      ret (Some (true, translation, u "googletrans-fallback"))
                    else ret None)
                   (fun _ => ret None) ;;
            match r with
            | Some out => ret out
            | None => ret (false, msg_all_failed text, u "failed")
            end
        end
    end.

Definition blank_item (i : nat) (text : str) : BatchItem.t :=
  {| BatchItem.index := Z.of_nat i;
     BatchItem.original := text;
     BatchItem.success := false;
     BatchItem.translation := [];
     BatchItem.error := u "Văn bản trống";
     BatchItem.endpoint := u "none" |}.

(** One turn of the loop of [translate_batch], at position [i] of a list
    of [len] texts. *)
Definition batch_step (len i : nat) (text : str) : M BatchItem.t :=
  if negb (truthy (strip text)) then ret (blank_item i text)
  else
    out <- translate_text text ;;
    let '(success, result, endpoint) := out in
    (if Z.of_nat i <? Z.of_nat len - 1 then time_sleep 100 else ret tt) ;;
    ret {| BatchItem.index := Z.of_nat i;
           BatchItem.original := strip text;
           BatchItem.success := success;
           BatchItem.translation := if success then result else [];
           BatchItem.error := if success then [] else result;
           BatchItem.endpoint := endpoint |}.

Fixpoint batch_loop (len i : nat) (texts : list str) : M (list BatchItem.t) :=
  match texts with
  | [] => ret []
  | text :: rest =>
      item <- batch_step len i text ;;
      items <- batch_loop len (S i) rest ;;
      ret (item :: items)
  end.

Definition translate_batch (text_list : list str) : M (list BatchItem.t) :=
  batch_loop (length text_list) 0 text_list.

Definition clear_cache : M nat :=
  h <- get_self ;;
  let cache_size := size (cache h) in
  emit CacheClear ;;
  update_self (with_cache ∅) ;;
  try_except
    (present <- path_exists ;;
     if present : bool then os_remove else ret tt)
    (fun _ => ret tt) ;;
  ret cache_size.

Definition get_cache_stats : M CacheStats.t :=
  present <- path_exists ;;
  cache_size_bytes <- (if present : bool then path_getsize else ret O) ;;
  h <- get_self ;;
  still_present <- path_exists ;;
  ret {| CacheStats.total_entries := size (cache h);
         CacheStats.cache_file_size_bytes := cache_size_bytes;
         CacheStats.cache_file_exists := still_present |}.


(** ** Notions used to state the properties *)

(** [TryEndpoint] and [CallGoogletrans] mark the invocation of an adapter. *)
Definition is_invocation (e : Event) : bool :=
  match e with
  | TryEndpoint _ | CallGoogletrans _ => true
  | _ => false
  end.

Definition invoked (evs : list Event) : list Event :=
  List.filter is_invocation evs.

Definition is_request (e : Event) : bool :=
  match e with
  | HttpSend _ => true
  | _ => false
  end.

(** Number of requests put on the wire. *)
Definition requests_sent (evs : list Event) : nat :=
  length (List.filter is_request evs).

Definition whitespace_only (s : str) : Prop :=
  Forall (fun c => isspace c = true) s.

(** The first character, when there is one, is not a space. *)
Definition no_lead (s : str) : Prop :=
  match s with
  | c :: _ => isspace c = false
  | [] => True
  end.

(** Every endpoint of the list, tried in order from the first state,
    reports failure; the second state is the one reached. *)
Inductive all_fail (text : str) : list Endpoint -> State -> State -> Prop :=
  | all_fail_nil st : all_fail text [] st st
  | all_fail_cons e rest st msg st1 st2 :
      _try_endpoint text e st = (Ret (false, msg), st1) ->
      all_fail text rest st1 st2 ->
      all_fail text (e :: rest) st st2.

(** All cached translations are non-empty. *)
Definition cache_ok (st : State) : Prop :=
  map_Forall (fun _ v => v <> []) (cache (self st)).

(** The step leaves the handler's fields alone and invokes no adapter. *)
Definition quiet (st st' : State) : Prop :=
  self st' = self st /\
  exists evs, log st' = log st ++ evs /\ invoked evs = [].

(** The step leaves the cache file alone. *)
Definition keeps_file (st st' : State) : Prop :=
  file (world st') = file (world st).

(** Whatever [m] does, [R] relates the states around it and [Q] holds of
    the value it returns. *)
Definition spec {A} (R : State -> State -> Prop) (Q : A -> Prop) (m : M A) : Prop :=
  forall st r st', m st = (r, st') -> R st st' /\ forall a, r = Ret a -> Q a.

(** [m] always returns: it never raises. *)
Definition returns {A} (m : M A) : Prop :=
  forall st, exists a st', m st = (Ret a, st').

(** The state in which [translate_text] starts its sweep on a cache miss. *)
Definition throttled (cache_key : str) (st : State) : State :=
  snd ((cache_lookup cache_key ;; _rate_limit) st).

(** The state after a translation is stored and the cache saved. *)
Definition stored (cache_key translation : str) (st : State) : State :=
  snd ((cache_store cache_key translation ;; _save_cache) st).

(** The state a cache hit leaves: one lookup more in the log. *)
Definition looked_up (cache_key : str) (st : State) : State :=
  {| self := self st; world := world st;
     log := log st ++ [CacheLookup cache_key] |}.

(** What an adapter with the anti-echo test may report as a success. *)
Definition no_echo (text : str) (r : bool * str) : Prop :=
  r.1 = true -> r.2 <> [] /\ lower r.2 <> lower text.

(** What every adapter may report as a success. *)
Definition non_empty (r : bool * str) : Prop :=
  r.1 = true -> r.2 <> [].

(** The six ways a call [translate_text chinese_text] can go, from the
    state [st]: the result and the state reached. *)
Inductive resolves (chinese_text : str) (st : State)
  : result (bool * str * str) -> State -> Prop :=
  | resolves_blank :
      truthy (strip chinese_text) = false ->
      resolves chinese_text st (Ret (false, msg_empty_input, u "none")) st
  | resolves_unencodable e :
      truthy (strip chinese_text) = true ->
      _get_cache_key (strip chinese_text) = Raise e ->
      resolves chinese_text st (Raise e) st
  | resolves_hit key translation :
      truthy (strip chinese_text) = true ->
      _get_cache_key (strip chinese_text) = Ret key ->
      cache (self st) !! key = Some translation ->
      resolves chinese_text st (Ret (true, translation, u "cache"))
        (looked_up key st)
  | resolves_provider key pre e post translation st1 st2 :
      truthy (strip chinese_text) = true ->
      _get_cache_key (strip chinese_text) = Ret key ->
      cache (self st) !! key = None ->
      api_endpoints (self st) = pre ++ e :: post ->
      all_fail (strip chinese_text) pre (throttled key st) st1 ->
      _try_endpoint (strip chinese_text) e st1 = (Ret (true, translation), st2) ->
      resolves chinese_text st (Ret (true, translation, description e))
        (stored key translation st2)
  | resolves_fallback key translation st1 st2 :
      truthy (strip chinese_text) = true ->
      _get_cache_key (strip chinese_text) = Ret key ->
      cache (self st) !! key = None ->
      all_fail (strip chinese_text) (api_endpoints (self st))
        (throttled key st) st1 ->
      _try_googletrans_fallback (strip chinese_text) st1
      = (Ret (true, translation), st2) ->
      resolves chinese_text st
        (Ret (true, translation, u "googletrans-fallback"))
        (stored key translation st2)
  | resolves_failed key msg st1 st2 :
      truthy (strip chinese_text) = true ->
      _get_cache_key (strip chinese_text) = Ret key ->
      cache (self st) !! key = None ->
      all_fail (strip chinese_text) (api_endpoints (self st))
        (throttled key st) st1 ->
      _try_googletrans_fallback (strip chinese_text) st1
      = (Ret (false, msg), st2) ->
      resolves chinese_text st
        (Ret (false, msg_all_failed (strip chinese_text), u "failed")) st2.

(** A text without lone surrogate: [encode('utf-8')] accepts it. *)
Definition encodable (s : str) : Prop :=
  Forall (fun c => is_surrogate c = false) s.

(** The item [translate_batch] builds from the outcome of [translate_text]
    on a text that is not blank. *)
Definition text_item (i : nat) (text : str) (out : bool * str * str)
  : BatchItem.t :=
  let '(success, result, endpoint) := out in
  {| BatchItem.index := Z.of_nat i;
     BatchItem.original := strip text;
     BatchItem.success := success;
     BatchItem.translation := if success then result else [];
     BatchItem.error := if success then [] else result;
     BatchItem.endpoint := endpoint |}.

(** The state after the pause that follows the text at position [i] of a
    list of [len] texts, when it is not the last one. *)
Definition paused (len i : nat) (st : State) : State :=
  if Z.of_nat i <? Z.of_nat len - 1
  then {| self := self st; world := world st; log := log st ++ [Sleep 100] |}
  else st.

(** A run of the loop of [translate_batch] from position [i], on a list
    of [len] texts: the texts left, the state before, the items appended
    and the state after. A blank text gets its failure item and the state
    stays as it is; any other text gets the item of the outcome of
    [translate_text] on it, in the state the texts before it have led to,
    and the pause follows. *)
Inductive batch_run (len : nat)
  : nat -> list str -> State -> list BatchItem.t -> State -> Prop :=
  | batch_run_nil i st : batch_run len i [] st [] st
  | batch_run_blank i text rest st items st' :
      whitespace_only text ->
      batch_run len (S i) rest st items st' ->
      batch_run len i (text :: rest) st (blank_item i text :: items) st'
  | batch_run_text i text rest st out st1 items st' :
      strip text <> [] ->
      translate_text text st = (Ret out, st1) ->
      batch_run len (S i) rest (paused len i st1) items st' ->
      batch_run len i (text :: rest) st (text_item i text out :: items) st'.

(** The translation a MyMemory response carries. *)
Definition mymemory_returned (response : Response) (raw : str) : Prop :=
  Resp.status_code response = 200 /\
  exists d status rd,
    Resp.json response = Some (JObj d)
    /\ assoc (u "responseStatus") d = Some status
    /\ eq_int status 200 = true
    /\ assoc (u "responseData") d = Some (JObj rd)
    /\ assoc (u "translatedText") rd = Some (JStr raw).

(** The file exists and the disk will refuse its removal. *)
Definition removal_refused (w : World) : bool :=
  match file w, disk w with
  | Some _, DiskError _ :: _ => true
  | _, _ => false
  end.

(** States and answers to run the handler on. *)
Definition demo_handler : Handler := __init__ (u "data") ∅.

Definition demo_world (replies : list Reply) : World :=
  {| net := replies; googletrans := []; clock := [1000; 1200];
     disk := []; file := None |}.

Definition demo_state (replies : list Reply) : State :=
  {| self := demo_handler; world := demo_world replies; log := [] |}.

Definition busy_response : Response :=
  {| Resp.status_code := 503; Resp.text := u "Service Unavailable";
     Resp.json := None |}.

Definition mymemory_response (translated : str) : Response :=
  {| Resp.status_code := 200; Resp.text := [];
     Resp.json :=
       Some (JObj [(u "responseStatus", JNum 200);
                   (u "responseData",
                    JObj [(u "translatedText", JStr translated)])]) |}.

Definition libretranslate_response (translated : str) : Response :=
  {| Resp.status_code := 200; Resp.text := [];
     Resp.json := Some (JObj [(u "translatedText", JStr translated)]) |}.

(** A state whose cache holds one entry, saved in a file the disk refuses
    to remove. *)
Definition locked_state : State :=
  {| self := with_cache {[ u "7eca689f0d3389d9dea66ae112e5cfd7" := u "xin chào" ]}
               demo_handler;
     world := {| net := []; googletrans := []; clock := [];
                 disk := [DiskError (Exn (u "PermissionError")
                                         (u "Permission denied"))];
                 file := Some (utf8_encode (u "{}")) |};
     log := [] |}.

(** The state after one request was put on the wire and its answer, the
    head of the script, was taken. *)
Definition sent (req : Request) (rest : list Reply) (st : State) : State :=
  {| self := self st; world := with_net rest (world st);
     log := log st ++ [HttpSend req] |}.

(** [all_fail], run: the state reached when every endpoint fails. *)
Fixpoint run_all_fail (text : str) (eps : list Endpoint) (st : State)
  : option State :=
  match eps with
  | [] => Some st
  | e :: rest =>
      match _try_endpoint text e st with
      | (Ret (false, _), st1) => run_all_fail text rest st1
      | _ => None
      end
  end.

(** A state whose cache holds one entry, saved in its file. *)
Definition saved_state : State :=
  {| self := with_cache {[ u "7eca689f0d3389d9dea66ae112e5cfd7" := u "xin chào" ]}
               demo_handler;
     world := {| net := []; googletrans := []; clock := []; disk := [];
                 file := Some (utf8_encode (u "{}")) |};
     log := [] |}.

(** ** Reasoning rules for the monad *)

Lemma bind_run {A B} (m : M A) (k : A -> M B) st a st1 :
  m st = (Ret a, st1) -> bind m k st = k a st1.
Proof. unfold bind. intros ->. reflexivity. Qed.

Section Rules.

Context (R : State -> State -> Prop) `{!PreOrder R}.

Lemma spec_ret {A} (Q : A -> Prop) a : Q a -> spec R Q (ret a).
Proof.
  intros HQ st r st' H. injection H as <- <-. split; [reflexivity |].
  intros a' [= <-]. exact HQ.
Qed.

Lemma spec_raise {A} (Q : A -> Prop) e : spec R Q (raise e).
Proof.
  intros st r st' H. injection H as <- <-. split; [reflexivity |].
  intros a' [=].
Qed.

Lemma spec_lift {A} (r : result A) : spec R (fun _ => True) (lift r).
Proof.
  intros st r' st' H. injection H as <- <-. split; [reflexivity | trivial].
Qed.

Lemma spec_bind {A B} (Q1 : A -> Prop) (Q : B -> Prop) m k :
  spec R Q1 m -> (forall a, Q1 a -> spec R Q (k a)) -> spec R Q (bind m k).
Proof.
  intros Hm Hk st r st' H. unfold bind in H.
  destruct (m st) as [[a | e] st1] eqn:E; destruct (Hm _ _ _ E) as [HR HQ].
  - destruct (Hk a (HQ a eq_refl) _ _ _ H) as [HR' HQ'].
    split; [etransitivity; eassumption | exact HQ'].
  - injection H as <- <-. split; [exact HR | intros a [=]].
Qed.

Lemma spec_bind_any {A B} (Q : B -> Prop) (m : M A) k :
  spec R (fun _ => True) m -> (forall a, spec R Q (k a)) -> spec R Q (bind m k).
Proof. intros Hm Hk. eapply spec_bind; [exact Hm | intros a _; apply Hk]. Qed.

Lemma spec_try_except {A} (Q : A -> Prop) m h :
  spec R Q m -> (forall e, spec R Q (h e)) -> spec R Q (try_except m h).
Proof.
  intros Hm Hh st r st' H. unfold try_except in H.
  destruct (m st) as [[a | e] st1] eqn:E; destruct (Hm _ _ _ E) as [HR HQ].
  - injection H as <- <-. split; [exact HR | exact HQ].
  - destruct (Hh e _ _ _ H) as [HR' HQ'].
    split; [etransitivity; eassumption | exact HQ'].
Qed.

Lemma spec_weaken {A} (Q Q' : A -> Prop) m :
  spec R Q m -> (forall a, Q a -> Q' a) -> spec R Q' m.
Proof.
  intros Hm HQ st r st' H. destruct (Hm _ _ _ H) as [HR Hq].
  split; [exact HR | intros a ->; apply HQ, Hq; reflexivity].
Qed.

Lemma spec_get_self : spec R (fun _ => True) get_self.
Proof.
  intros st r st' H. injection H as <- <-. split; [reflexivity | trivial].
Qed.

Lemma spec_get_world : spec R (fun _ => True) get_world.
Proof.
  intros st r st' H. injection H as <- <-. split; [reflexivity | trivial].
Qed.

End Rules.

#[local] Instance quiet_preorder : PreOrder quiet.
Proof.
  split.
  - intros st. split; [reflexivity |]. exists []. rewrite app_nil_r. auto.
  - intros a b c [Hs1 (e1 & Hl1 & Hi1)] [Hs2 (e2 & Hl2 & Hi2)].
    split; [congruence |]. exists (e1 ++ e2). split.
    + rewrite Hl2, Hl1, app_assoc. reflexivity.
    + unfold invoked in *. rewrite List.filter_app, Hi1, Hi2. reflexivity.
Qed.

Lemma spec_emit_quiet e :
  is_invocation e = false -> spec quiet (fun _ => True) (emit e).
Proof.
  intros He st r st' H. injection H as <- <-. split; [| trivial].
  split; [reflexivity |]. exists [e]. split; [reflexivity |].
  unfold invoked. simpl. rewrite He. reflexivity.
Qed.

Lemma spec_update_world_quiet f : spec quiet (fun _ => True) (update_world f).
Proof.
  intros st r st' H. injection H as <- <-. split; [| trivial].
  split; [reflexivity |]. exists []. simpl. rewrite app_nil_r. auto.
Qed.

Create HintDb methods.
#[local] Hint Unfold next_reply next_googletrans next_disk time_time time_sleep
  path_exists path_getsize write_file os_remove session_get session_post
  response_json dict_get attr_strip contains subscript : methods.

#[local] Instance keeps_file_preorder : PreOrder keeps_file.
Proof.
  split.
  - intros st. reflexivity.
  - intros a b c H1 H2. unfold keeps_file in *. congruence.
Qed.

Lemma spec_emit_file e : spec keeps_file (fun _ => True) (emit e).
Proof.
  intros st r st' H. injection H as <- <-. split; [reflexivity | trivial].
Qed.

Lemma spec_update_world_file f :
  (forall w, file (f w) = file w) ->
  spec keeps_file (fun _ => True) (update_world f).
Proof.
  intros Hf st r st' H. injection H as <- <-. split; [apply Hf | trivial].
Qed.

Lemma spec_update_self_file f : spec keeps_file (fun _ => True) (update_self f).
Proof.
  intros st r st' H. injection H as <- <-. split; [reflexivity | trivial].
Qed.

Ltac frame_hook := fail.

(** One step through a computation, given how to deal with the updates of
    the world and with the events ([upd], [emt]) and how to prove the
    postcondition of a returned value ([fin]). *)
Ltac frame_step upd emt fin :=
  match goal with
  | |- spec _ _ (ret _) => apply spec_ret; [apply _ | fin]
  | |- spec _ _ (raise _) => apply spec_raise; apply _
  | |- spec _ _ (lift _) => apply spec_lift; apply _
  | |- spec _ _ get_self => apply spec_get_self; apply _
  | |- spec _ _ get_world => apply spec_get_world; apply _
  | |- spec _ _ (update_world _) => upd
  | |- spec _ _ (emit _) => emt
  | |- spec keeps_file _ (update_self _) => apply spec_update_self_file
  | |- spec _ _ (bind _ _) => apply spec_bind_any; [apply _ | | intros ?]
  | |- spec _ _ (try_except _ _) => apply spec_try_except; [apply _ | | intros ?]
  | |- spec _ _ (match ?x with _ => _ end) => destruct x eqn:?
  | |- spec _ _ (let 'pair _ _ := ?x in _) => destruct x eqn:?
  | H : spec ?R ?Q ?m |- spec ?R ?Q ?m => exact H
  | |- spec _ _ _ => frame_hook
  | |- spec _ _ _ => progress (autounfold with methods; cbv zeta)
  end.

Ltac quiet_run fin :=
  repeat (frame_step ltac:(apply spec_update_world_quiet)
                     ltac:(apply spec_emit_quiet; reflexivity) fin).

Ltac file_run :=
  repeat (frame_step ltac:(apply spec_update_world_file; reflexivity)
                     ltac:(apply spec_emit_file) ltac:(trivial)).

Lemma urlopen_quiet retries rt req :
  spec quiet (fun _ => True) (urlopen retries rt req).
Proof.
  induction retries as [| n IH]; simpl; quiet_run trivial.
Qed.

Lemma urlopen_file retries rt req :
  spec keeps_file (fun _ => True) (urlopen retries rt req).
Proof.
  induction retries as [| n IH]; simpl; file_run.
Qed.

Ltac frame_hook ::= first [apply urlopen_quiet | apply urlopen_file].

Lemma returns_ret {A} (a : A) : returns (ret a).
Proof. intros st. exists a, st. reflexivity. Qed.

Lemma returns_bind {A B} (m : M A) (k : A -> M B) :
  returns m -> (forall a, returns (k a)) -> returns (bind m k).
Proof.
  intros Hm Hk st. destruct (Hm st) as (a & st1 & E).
  destruct (Hk a st1) as (b & st2 & E'). exists b, st2.
  rewrite (bind_run _ _ _ _ _ E). exact E'.
Qed.

Lemma returns_try_except {A} (m : M A) h :
  (forall e, returns (h e)) -> returns (try_except m h).
Proof.
  intros Hh st. unfold try_except. destruct (m st) as [[a | e] st1].
  - exists a, st1. reflexivity.
  - apply Hh.
Qed.

Lemma returns_emit e : returns (emit e).
Proof. intros st. eexists _, _. reflexivity. Qed.

Lemma returns_update_self f : returns (update_self f).
Proof. intros st. eexists _, _. reflexivity. Qed.

(** A computation that returns is determined by its final state. *)
Lemma returns_unit_run (m : M unit) st : returns m -> m st = (Ret tt, snd (m st)).
Proof.
  intros Hm. destruct (Hm st) as ([] & st' & E). rewrite E. reflexivity.
Qed.

(** ** Strings *)

Lemma truthy_true (s : str) : truthy s = true <-> s <> [].
Proof. destruct s; simpl; split; congruence. Qed.

Lemma str_eqb_false (a b : str) : negb (str_eqb a b) = true <-> a <> b.
Proof.
  unfold str_eqb. rewrite negb_true_iff, bool_decide_eq_false. reflexivity.
Qed.

Lemma lstrip_whitespace (s : str) : whitespace_only s -> lstrip s = [].
Proof.
  induction 1 as [| c s Hc _ IH]; simpl; [reflexivity |].
  rewrite Hc. exact IH.
Qed.

Lemma strip_whitespace (s : str) : whitespace_only s -> strip s = [].
Proof.
  intros H. unfold strip. rewrite (lstrip_whitespace s H). reflexivity.
Qed.

(** The test [not chinese_text or not chinese_text.strip()] only depends
    on the stripped text. *)
Lemma blank_test (t : str) :
  negb (truthy t) || negb (truthy (strip t)) = negb (truthy (strip t)).
Proof. destruct t; reflexivity. Qed.

(** ** The adapters *)

Ltac adapter_fin :=
  simpl; intros; try discriminate;
  repeat match goal with
         | H : _ && _ = true |- _ => apply andb_prop in H; destruct H
         | H : truthy _ = true |- _ => apply truthy_true in H
         | H : negb (str_eqb _ _) = true |- _ => apply str_eqb_false in H
         end;
  try (split; assumption); try assumption.

Lemma _try_mymemory_spec text endpoint_url :
  spec quiet (no_echo text) (_try_mymemory text endpoint_url).
Proof. unfold _try_mymemory, no_echo. quiet_run adapter_fin. Qed.

Lemma _try_libretranslate_spec text endpoint_url :
  spec quiet non_empty (_try_libretranslate text endpoint_url).
Proof. unfold _try_libretranslate, non_empty. quiet_run adapter_fin. Qed.

Lemma _try_lingva_spec text endpoint_url :
  spec quiet non_empty (_try_lingva text endpoint_url).
Proof. unfold _try_lingva, non_empty. quiet_run adapter_fin. Qed.

Lemma _try_mymemory_file text endpoint_url :
  spec keeps_file (fun _ => True) (_try_mymemory text endpoint_url).
Proof. unfold _try_mymemory. file_run. Qed.

Lemma _try_libretranslate_file text endpoint_url :
  spec keeps_file (fun _ => True) (_try_libretranslate text endpoint_url).
Proof. unfold _try_libretranslate. file_run. Qed.

Lemma _try_lingva_file text endpoint_url :
  spec keeps_file (fun _ => True) (_try_lingva text endpoint_url).
Proof. unfold _try_lingva. file_run. Qed.

Lemma _try_endpoint_file text e st r st' :
  _try_endpoint text e st = (r, st') -> file (world st') = file (world st).
Proof.
  assert (Hs : spec keeps_file (fun _ => True) (_try_endpoint text e)).
  { unfold _try_endpoint. file_run;
      first [apply _try_mymemory_file | apply _try_libretranslate_file
             | apply _try_lingva_file]. }
  intros H. exact (proj1 (Hs _ _ _ H)).
Qed.

Lemma _try_googletrans_fallback_file text st r st' :
  _try_googletrans_fallback text st = (r, st') ->
  file (world st') = file (world st).
Proof.
  assert (Hs : spec keeps_file (fun _ => True) (_try_googletrans_fallback text)).
  { unfold _try_googletrans_fallback. file_run. }
  intros H. exact (proj1 (Hs _ _ _ H)).
Qed.

Lemma no_echo_non_empty text r : no_echo text r -> non_empty r.
Proof. unfold no_echo, non_empty. tauto. Qed.

(** [_try_endpoint] never raises; it logs its invocation, then only
    requests; the handler's fields are not touched. *)
Lemma _try_endpoint_spec text e st r st' :
  _try_endpoint text e st = (r, st') ->
  exists b x, r = Ret (b, x) /\ non_empty (b, x) /\
    self st' = self st /\
    exists evs, log st' = log st ++ TryEndpoint e :: evs /\ invoked evs = [].
Proof.
  unfold _try_endpoint. intros H.
  set (body := try_except _ _) in H.
  assert (Hs : spec quiet non_empty body).
  { subst body. apply spec_try_except; [apply _ | | intros e0].
    - repeat match goal with |- spec _ _ (if ?c then _ else _) => destruct c end.
      + exact (spec_weaken quiet _ _ _ (_try_mymemory_spec text _)
                 (no_echo_non_empty text)).
      + apply _try_libretranslate_spec.
      + apply _try_lingva_spec.
      + apply spec_ret; [apply _ | unfold non_empty; simpl; discriminate].
    - apply spec_ret; [apply _ | unfold non_empty; simpl; discriminate]. }
  assert (Hr : returns body).
  { subst body. apply returns_try_except. intros e0. apply returns_ret. }
  unfold bind, emit in H. simpl in H.
  destruct (Hr {| self := self st; world := world st;
                  log := log st ++ [TryEndpoint e] |}) as ([b x] & st1 & E).
  rewrite E in H. injection H as <- <-.
  destruct (Hs _ _ _ E) as [[Hself (evs & Hlog & Hinv)] HQ].
  exists b, x. repeat split.
  - apply HQ. reflexivity.
  - exact Hself.
  - exists evs. split; [| exact Hinv].
    rewrite Hlog. simpl. rewrite <- app_assoc. reflexivity.
Qed.

Lemma _try_endpoint_returns text e : returns (_try_endpoint text e).
Proof.
  unfold _try_endpoint. apply returns_bind; [apply returns_emit | intros _].
  apply returns_try_except. intros e0. apply returns_ret.
Qed.

(** The fallback never raises either; it logs its call to googletrans. *)
Lemma _try_googletrans_fallback_spec text st r st' :
  _try_googletrans_fallback text st = (r, st') ->
  exists b x, r = Ret (b, x) /\ no_echo text (b, x) /\
    self st' = self st /\
    log st' = log st ++ [CallGoogletrans text].
Proof.
  unfold _try_googletrans_fallback, next_googletrans, bind, emit, get_world,
    update_world, ret, no_echo.
  simpl. intros H.
  destruct (googletrans (world st)) as [| reply rest]; simpl in H;
    [| destruct reply as [| e | [[t |] |]]; simpl in H ];
    try (destruct (truthy t && truthy (strip t)) eqn:Ht; simpl in H;
         [destruct (negb (str_eqb (lower (strip t)) (lower text))) eqn:Hl;
          simpl in H |]);
    injection H as <- <-; eexists _, _; (split; [reflexivity |]);
    simpl; (split; [adapter_fin | split; reflexivity]).
Qed.

(** ** The cache and the rate limiter *)

Lemma _save_cache_quiet : spec quiet (fun _ => True) _save_cache.
Proof. unfold _save_cache. quiet_run trivial. Qed.

Lemma _save_cache_returns : returns _save_cache.
Proof.
  unfold _save_cache. apply returns_try_except. intros e. apply returns_ret.
Qed.

Lemma commit_run cache_key translation st :
  (cache_store cache_key translation ;; _save_cache) st
  = (Ret tt, stored cache_key translation st).
Proof.
  unfold stored. apply returns_unit_run.
  apply returns_bind; [| intros _; apply _save_cache_returns].
  unfold cache_store. apply returns_bind; [apply returns_emit | intros _].
  apply returns_update_self.
Qed.

(** Storing changes the cache at the key and nothing else of the handler;
    no adapter is invoked. *)
Lemma stored_spec cache_key translation st :
  self (stored cache_key translation st)
  = with_cache (<[cache_key := translation]> (cache (self st))) (self st)
  /\ exists evs,
      log (stored cache_key translation st)
      = log st ++ CacheStore cache_key translation :: evs
      /\ invoked evs = [].
Proof.
  unfold stored, cache_store, bind, emit, update_self. simpl.
  destruct (_save_cache _) as [r st'] eqn:E. simpl.
  destruct (_save_cache_quiet _ _ _ E) as [[Hself (evs & Hlog & Hinv)] _].
  simpl in Hself, Hlog. split; [exact Hself |].
  exists evs. split; [| exact Hinv].
  rewrite Hlog, <- app_assoc. reflexivity.
Qed.

Lemma _rate_limit_spec st :
  exists now st',
    _rate_limit st = (Ret tt, st')
    /\ self st' = with_last_request_time now (self st)
    /\ exists evs, log st' = log st ++ evs /\ invoked evs = [].
Proof.
  unfold _rate_limit, time_time, time_sleep, bind, emit, get_world, get_self,
    update_world, update_self, ret.
  simpl.
  destruct (_ <? _); simpl; eexists _, _;
    (split; [reflexivity |]); (split; [reflexivity |]);
    eexists; rewrite <- !app_assoc; (split; [reflexivity |]); reflexivity.
Qed.

Lemma throttled_run cache_key st :
  (cache_lookup cache_key ;; _rate_limit) st = (Ret tt, throttled cache_key st).
Proof.
  unfold throttled. apply returns_unit_run.
  apply returns_bind.
  - intros s. eexists _, _. reflexivity.
  - intros _ s. destruct (_rate_limit_spec s) as (now & s' & E & _). eauto.
Qed.

Lemma throttled_spec cache_key st :
  (exists now, self (throttled cache_key st)
               = with_last_request_time now (self st))
  /\ exists evs,
      log (throttled cache_key st) = log st ++ CacheLookup cache_key :: evs
      /\ invoked evs = [].
Proof.
  unfold throttled, cache_lookup, bind, emit, get_self, ret. simpl.
  destruct (_rate_limit_spec
              {| self := self st; world := world st;
                 log := log st ++ [CacheLookup cache_key] |})
    as (now & st' & E & Hself & evs & Hlog & Hinv).
  rewrite E. simpl. split; [exists now; exact Hself |].
  exists evs. split; [| exact Hinv].
  rewrite Hlog. simpl. rewrite <- app_assoc. reflexivity.
Qed.

Lemma throttled_file cache_key st :
  file (world (throttled cache_key st)) = file (world st).
Proof.
  assert (Hs : spec keeps_file (fun _ => True)
                 (cache_lookup cache_key ;; _rate_limit)).
  { unfold cache_lookup, _rate_limit. file_run. }
  unfold throttled.
  destruct ((cache_lookup cache_key ;; _rate_limit) st) as [r st'] eqn:E.
  exact (proj1 (Hs _ _ _ E)).
Qed.

(** ** The sweep over the endpoints *)

Lemma all_fail_file text eps st st' :
  all_fail text eps st st' -> file (world st') = file (world st).
Proof.
  induction 1 as [st | e rest st msg st1 st2 He _ IH]; [reflexivity |].
  rewrite IH. exact (_try_endpoint_file _ _ _ _ _ He).
Qed.

Lemma all_fail_spec text eps st st' :
  all_fail text eps st st' ->
  self st' = self st /\
  exists evs, log st' = log st ++ evs /\ invoked evs = map TryEndpoint eps.
Proof.
  induction 1 as [st | e rest st msg st1 st2 He _ IH].
  - split; [reflexivity |]. exists []. rewrite app_nil_r. auto.
  - destruct IH as [Hself (evs2 & Hlog2 & Hinv2)].
    destruct (_try_endpoint_spec _ _ _ _ _ He)
      as (b & x & _ & _ & Hself1 & evs1 & Hlog1 & Hinv1).
    split; [congruence |].
    exists (TryEndpoint e :: evs1 ++ evs2). split.
    + rewrite Hlog2, Hlog1, <- app_assoc. reflexivity.
    + unfold invoked in *. simpl. rewrite List.filter_app, Hinv1, Hinv2.
      reflexivity.
Qed.

Lemma run_all_fail_sound text eps : forall st st',
  run_all_fail text eps st = Some st' -> all_fail text eps st st'.
Proof.
  induction eps as [| e rest IH]; intros st st' H; simpl in H.
  - injection H as <-. constructor.
  - destruct (_try_endpoint text e st) as [[[[] msg] | ex] st1] eqn:E;
      try discriminate.
    econstructor; [exact E | apply IH, H].
Qed.

Lemma sweep_step_fail text cache_key e rest st msg st1 :
  _try_endpoint text e st = (Ret (false, msg), st1) ->
  sweep text cache_key (e :: rest) st = sweep text cache_key rest st1.
Proof.
  intros He. simpl. unfold bind at 1. unfold try_except.
  rewrite (bind_run _ _ _ _ _ He). reflexivity.
Qed.

Lemma sweep_step_success text cache_key e rest st translation st1 :
  _try_endpoint text e st = (Ret (true, translation), st1) ->
  sweep text cache_key (e :: rest) st
  = (Ret (Some (true, translation, description e)),
     stored cache_key translation st1).
Proof.
  intros He. simpl. unfold bind at 1. unfold try_except.
  rewrite (bind_run _ _ _ _ _ He).
  change (cache_store cache_key translation;; _save_cache;;
          ret (Some (true, translation, description e)))
    with (bind (cache_store cache_key translation)
            (fun _ => bind _save_cache
               (fun _ => ret (Some (true, translation, description e))))).
  unfold bind at 1 2.
  pose proof (commit_run cache_key translation st1) as Hc.
  unfold bind in Hc.
  destruct (cache_store cache_key translation st1) as [[[] | e0] s1];
    [| discriminate].
  rewrite Hc. reflexivity.
Qed.

Lemma sweep_all_fail text cache_key eps st st' :
  all_fail text eps st st' -> sweep text cache_key eps st = (Ret None, st').
Proof.
  induction 1 as [st | e rest st msg st1 st2 He _ IH].
  - reflexivity.
  - rewrite (sweep_step_fail _ _ _ _ _ _ _ He). exact IH.
Qed.

Lemma sweep_first_success text cache_key pre e post st st1 translation st2 :
  all_fail text pre st st1 ->
  _try_endpoint text e st1 = (Ret (true, translation), st2) ->
  sweep text cache_key (pre ++ e :: post) st
  = (Ret (Some (true, translation, description e)),
     stored cache_key translation st2).
Proof.
  induction 1 as [st | e0 rest st msg st1 st3 He0 _ IH]; intros He.
  - apply sweep_step_success. exact He.
  - simpl app. rewrite (sweep_step_fail _ _ _ _ _ _ _ He0). apply IH, He.
Qed.

(** Conversely, a sweep either fails on every endpoint or stops at the
    first one that succeeds. *)
Lemma sweep_inv text cache_key eps st r st' :
  sweep text cache_key eps st = (r, st') ->
  (r = Ret None /\ all_fail text eps st st') \/
  (exists pre e post translation st1 st2,
      eps = pre ++ e :: post /\ all_fail text pre st st1 /\
      _try_endpoint text e st1 = (Ret (true, translation), st2) /\
      r = Ret (Some (true, translation, description e)) /\
      st' = stored cache_key translation st2).
Proof.
  revert st. induction eps as [| e rest IH]; intros st H.
  - injection H as <- <-. left. split; [reflexivity | constructor].
  - destruct (_try_endpoint_returns text e st) as ([b x] & st1 & He).
    destruct b.
    + rewrite (sweep_step_success _ _ _ _ _ _ _ He) in H.
      injection H as <- <-. right.
      exists [], e, rest, x, st, st1. repeat split; [constructor | exact He].
    + rewrite (sweep_step_fail _ _ _ _ _ _ _ He) in H.
      destruct (IH _ H) as [[-> Hf] | (pre & e1 & post & tr & s1 & s2 & -> & Hf & He1 & -> & ->)].
      * left. split; [reflexivity | econstructor; eassumption].
      * right. exists (e :: pre), e1, post, tr, s1, s2.
        repeat split; [econstructor; eassumption | exact He1].
Qed.

(** ** translate_text *)

Lemma commit_ret {A} cache_key translation (x : A) st :
  (cache_store cache_key translation ;; _save_cache ;; ret x) st
  = (Ret x, stored cache_key translation st).
Proof.
  pose proof (commit_run cache_key translation st) as Hc.
  unfold bind in *.
  destruct (cache_store cache_key translation st) as [[[] | e0] s1];
    [| discriminate].
  rewrite Hc. reflexivity.
Qed.

Lemma cache_lookup_run cache_key st :
  cache_lookup cache_key st
  = (Ret (cache (self st) !! cache_key), looked_up cache_key st).
Proof. reflexivity. Qed.

Lemma _rate_limit_run cache_key st :
  _rate_limit (looked_up cache_key st) = (Ret tt, throttled cache_key st).
Proof.
  pose proof (throttled_run cache_key st) as H.
  rewrite (bind_run _ _ _ _ _ (cache_lookup_run cache_key st)) in H. exact H.
Qed.

Lemma throttled_endpoints cache_key st :
  api_endpoints (self (throttled cache_key st)) = api_endpoints (self st).
Proof.
  destruct (throttled_spec cache_key st) as [[now ->] _]. reflexivity.
Qed.

Lemma throttled_cache cache_key st :
  cache (self (throttled cache_key st)) = cache (self st).
Proof.
  destruct (throttled_spec cache_key st) as [[now ->] _]. reflexivity.
Qed.

(** On a cache miss, [translate_text] is the sweep from the throttled
    state, followed by the fallback when the sweep returns nothing. *)
Lemma translate_text_miss chinese_text st key :
  truthy (strip chinese_text) = true ->
  _get_cache_key (strip chinese_text) = Ret key ->
  cache (self st) !! key = None ->
  translate_text chinese_text st
  = match sweep (strip chinese_text) key (api_endpoints (self st))
            (throttled key st) with
    | (Ret (Some out), st1) => (Ret out, st1)
    | (Ret None, st1) =>
        match _try_googletrans_fallback (strip chinese_text) st1 with
        | (Ret (true, translation), st2) =>
            (Ret (true, translation, u "googletrans-fallback"),
             stored key translation st2)
        | (Ret (false, _), st2) =>
            (Ret (false, msg_all_failed (strip chinese_text), u "failed"), st2)
        | (Raise _, st2) =>
            (Ret (false, msg_all_failed (strip chinese_text), u "failed"), st2)
        end
    | (Raise e, st1) => (Raise e, st1)
    end.
Proof.
  intros Hnb Hk Hmiss. unfold translate_text. rewrite blank_test, Hnb.
  change (negb true) with false. cbv iota zeta.
  set (text := strip chinese_text) in *.
  unfold bind at 1. unfold lift. rewrite Hk.
  rewrite (bind_run _ _ _ _ _ (cache_lookup_run key st)), Hmiss.
  rewrite (bind_run _ _ _ _ _ (_rate_limit_run key st)).
  unfold bind at 1. unfold get_self at 1. rewrite throttled_endpoints.
  unfold bind at 1.
  destruct (sweep text key (api_endpoints (self st)) (throttled key st))
    as [[[out |] | e] st1]; try reflexivity.
  unfold bind at 1. unfold try_except. unfold bind at 1.
  destruct (_try_googletrans_fallback text st1) as [[[[] x] | e] st2];
    try reflexivity.
  rewrite commit_ret. reflexivity.
Qed.

Lemma translate_text_hit chinese_text st key translation :
  truthy (strip chinese_text) = true ->
  _get_cache_key (strip chinese_text) = Ret key ->
  cache (self st) !! key = Some translation ->
  translate_text chinese_text st
  = (Ret (true, translation, u "cache"), looked_up key st).
Proof.
  intros Hnb Hk Hc. unfold translate_text. rewrite blank_test, Hnb.
  change (negb true) with false. cbv iota zeta.
  unfold bind at 1. unfold lift. rewrite Hk.
  rewrite (bind_run _ _ _ _ _ (cache_lookup_run key st)), Hc. reflexivity.
Qed.

Lemma translate_text_resolves chinese_text st :
  resolves chinese_text st (translate_text chinese_text st).1
    (translate_text chinese_text st).2.
Proof.
  destruct (truthy (strip chinese_text)) eqn:Hnb.
  2: { unfold translate_text. rewrite blank_test, Hnb. simpl.
       apply resolves_blank, Hnb. }
  destruct (_get_cache_key (strip chinese_text)) as [key | e0] eqn:Hk.
  2: { unfold translate_text. rewrite blank_test, Hnb.
       change (negb true) with false. cbv iota zeta.
       unfold bind at 1. unfold lift. rewrite Hk. simpl.
       apply resolves_unencodable; assumption. }
  destruct (cache (self st) !! key) as [v |] eqn:Hc.
  { rewrite (translate_text_hit _ _ _ _ Hnb Hk Hc). simpl.
    eapply resolves_hit; eassumption. }
  rewrite (translate_text_miss _ _ _ Hnb Hk Hc).
  destruct (sweep _ _ _ _) as [r st1] eqn:Hs.
  destruct (sweep_inv _ _ _ _ _ _ Hs)
    as [[-> Hf] | (pre & e & post & tr & s1 & s2 & Heps & Hf & He & -> & ->)].
  - destruct (_try_googletrans_fallback _ st1) as [r2 st2] eqn:Hg.
    destruct (_try_googletrans_fallback_spec _ _ _ _ Hg)
      as (b & x & -> & _). simpl.
    destruct b; simpl.
    + eapply resolves_fallback; eassumption.
    + eapply resolves_failed; eassumption.
  - simpl. eapply resolves_provider; eassumption.
Qed.

Lemma translate_text_inv chinese_text st r st' :
  translate_text chinese_text st = (r, st') -> resolves chinese_text st r st'.
Proof.
  intros H. pose proof (translate_text_resolves chinese_text st) as Hr.
  rewrite H in Hr. exact Hr.
Qed.

Lemma resolves_translate_text chinese_text st r st' :
  resolves chinese_text st r st' -> translate_text chinese_text st = (r, st').
Proof.
  destruct 1 as [Hb | e0 Hnb Hk | key v Hnb Hk Hc
                 | key pre e post tr s1 s2 Hnb Hk Hc Heps Hf He
                 | key tr s1 s2 Hnb Hk Hc Hf Hg | key msg s1 s2 Hnb Hk Hc Hf Hg].
  - unfold translate_text. rewrite blank_test, Hb. reflexivity.
  - unfold translate_text. rewrite blank_test, Hnb.
    change (negb true) with false. cbv iota zeta.
    unfold bind at 1. unfold lift. rewrite Hk. reflexivity.
  - exact (translate_text_hit _ _ _ _ Hnb Hk Hc).
  - rewrite (translate_text_miss _ _ _ Hnb Hk Hc), Heps.
    rewrite (sweep_first_success _ _ _ _ _ _ _ _ _ Hf He). reflexivity.
  - rewrite (translate_text_miss _ _ _ Hnb Hk Hc).
    rewrite (sweep_all_fail _ _ _ _ _ Hf), Hg. reflexivity.
  - rewrite (translate_text_miss _ _ _ Hnb Hk Hc).
    rewrite (sweep_all_fail _ _ _ _ _ Hf), Hg. reflexivity.
Qed.

(** ** Properties of translate_text *)

(** A successful call is a call on a text that is not blank, and it leaves
    the translation in the cache, under the key of the stripped text. *)
Lemma success_is_cached chinese_text st translation label st1 :
  translate_text chinese_text st = (Ret (true, translation, label), st1) ->
  truthy (strip chinese_text) = true /\
  exists key,
    _get_cache_key (strip chinese_text) = Ret key
    /\ cache (self st1) !! key = Some translation.
Proof.
  intros H. apply translate_text_inv in H.
  inversion H as [Hb | e0 Hnb Hk | key v Hnb Hk Hc
                  | key pre e post tr s1 s2 Hnb Hk Hc Heps Hf He
                  | key tr s1 s2 Hnb Hk Hc Hf Hg | key m s1 s2 Hnb Hk Hc Hf Hg];
    subst; (split; [assumption |]); exists key; (split; [assumption |]).
  - simpl. assumption.
  - destruct (stored_spec key translation s2) as [-> _].
    simpl. apply lookup_insert_eq.
  - destruct (stored_spec key translation s2) as [-> _].
    simpl. apply lookup_insert_eq.
Qed.

(** C1: when a first call [translate_text t] on a text that is not empty
    after trimming succeeds, the call that follows at once returns the same
    translation with the label "cache"; it leaves the world (network,
    googletrans, clock, disk) and the handler's fields (the rate limiter's
    [last_request_time] among them) as they were, and adds to the log the
    cache lookup only, under the key [_get_cache_key] computes for the
    trimmed text: no request is sent. *)
Theorem translate_text_twice chinese_text st translation label st1 :
  strip chinese_text <> [] ->
  translate_text chinese_text st = (Ret (true, translation, label), st1) ->
  exists key st2,
    _get_cache_key (strip chinese_text) = Ret key
    /\ translate_text chinese_text st1 = (Ret (true, translation, u "cache"), st2)
    /\ world st2 = world st1
    /\ self st2 = self st1
    /\ log st2 = log st1 ++ [CacheLookup key].
Proof.
  intros _ H. destruct (success_is_cached _ _ _ _ _ H) as [Hnb (key & Hk & Hc)].
  exists key, (looked_up key st1).
  split; [exact Hk |].
  split; [apply translate_text_hit; assumption |].
  repeat split.
Qed.

(** C9: two texts with the same trimmed form have the same cache key
    ([_get_cache_key] gives the same result on both), and the entry a
    successful call on one of them creates is the one a call on the other
    finds: that call is a cache hit with the same translation. *)
Theorem equal_trimmed_same_entry t1 t2 st translation label st1 :
  strip t1 = strip t2 ->
  translate_text t1 st = (Ret (true, translation, label), st1) ->
  _get_cache_key (strip t1) = _get_cache_key (strip t2)
  /\ exists key,
      _get_cache_key (strip t2) = Ret key
      /\ cache (self st1) !! key = Some translation
      /\ translate_text t2 st1
         = (Ret (true, translation, u "cache"), looked_up key st1).
Proof.
  intros Heq H. destruct (success_is_cached _ _ _ _ _ H) as [Hnb (key & Hk & Hc)].
  rewrite Heq in Hnb, Hk. split; [rewrite Heq; reflexivity |].
  exists key. split; [exact Hk |].
  split; [exact Hc |]. apply translate_text_hit; assumption.
Qed.

(** C4: for an input that is empty or made of whitespace only,
    [translate_text] returns a failure (label "none") and the state it
    started from, unchanged: the cache is neither read nor written, the
    rate limiter is not consulted, the log gets no event, the world's
    scripts are not consumed. *)
Theorem translate_text_blank chinese_text st :
  whitespace_only chinese_text ->
  translate_text chinese_text st = (Ret (false, msg_empty_input, u "none"), st).
Proof.
  intros H. apply resolves_translate_text, resolves_blank.
  rewrite (strip_whitespace _ H). reflexivity.
Qed.

Lemma provider_log cache_key text pre e st st1 translation st2 :
  all_fail text pre (throttled cache_key st) st1 ->
  _try_endpoint text e st1 = (Ret (true, translation), st2) ->
  exists evs,
    log (stored cache_key translation st2) = log st ++ evs
    /\ invoked evs = map TryEndpoint (pre ++ [e]).
Proof.
  intros Hf He.
  destruct (throttled_spec cache_key st) as [_ (ev0 & Hl0 & Hi0)].
  destruct (all_fail_spec _ _ _ _ Hf) as [_ (ev1 & Hl1 & Hi1)].
  destruct (_try_endpoint_spec _ _ _ _ _ He)
    as (b & x & _ & _ & _ & ev2 & Hl2 & Hi2).
  destruct (stored_spec cache_key translation st2) as [_ (ev3 & Hl3 & Hi3)].
  exists ((CacheLookup cache_key :: ev0) ++ ev1
          ++ (TryEndpoint e :: ev2) ++ (CacheStore cache_key translation :: ev3)).
  split.
  - rewrite Hl3, Hl2, Hl1, Hl0. rewrite <- !app_assoc. reflexivity.
  - unfold invoked in *. rewrite !List.filter_app. simpl.
    rewrite Hi0, Hi1, Hi2, Hi3, map_app, app_nil_r. reflexivity.
Qed.

Lemma exhausted_log cache_key text eps st st1 r st2 :
  all_fail text eps (throttled cache_key st) st1 ->
  _try_googletrans_fallback text st1 = (r, st2) ->
  self st2 = self st1 /\
  exists evs,
    log st2 = log st ++ evs
    /\ invoked evs = map TryEndpoint eps ++ [CallGoogletrans text].
Proof.
  intros Hf Hg.
  destruct (throttled_spec cache_key st) as [_ (ev0 & Hl0 & Hi0)].
  destruct (all_fail_spec _ _ _ _ Hf) as [_ (ev1 & Hl1 & Hi1)].
  destruct (_try_googletrans_fallback_spec _ _ _ _ Hg)
    as (b & x & _ & _ & Hself & Hl2).
  split; [exact Hself |].
  exists ((CacheLookup cache_key :: ev0) ++ ev1 ++ [CallGoogletrans text]).
  split.
  - rewrite Hl2, Hl1, Hl0. rewrite <- !app_assoc. reflexivity.
  - unfold invoked in *. rewrite !List.filter_app. simpl.
    rewrite Hi0, Hi1. reflexivity.
Qed.

(** C2: on a cache miss for a text that is not blank ([key] is the key
    [_get_cache_key] computes for it, and the cache does not hold it), if
    the endpoints before [e] in [api_endpoints], tried in order, all fail
    and [e] succeeds with [translation], then [translate_text] returns
    that translation with [e]'s description as label, the cache maps the
    key to it, and the adapters invoked are those endpoints and [e], in
    the configured order: no endpoint after [e], and not the fallback. *)
Theorem first_success_wins chinese_text st key pre e post st1 translation st2 :
  strip chinese_text <> [] ->
  _get_cache_key (strip chinese_text) = Ret key ->
  cache (self st) !! key = None ->
  api_endpoints (self st) = pre ++ e :: post ->
  all_fail (strip chinese_text) pre (throttled key st) st1 ->
  _try_endpoint (strip chinese_text) e st1 = (Ret (true, translation), st2) ->
  exists st3,
    translate_text chinese_text st = (Ret (true, translation, description e), st3)
    /\ cache (self st3) = <[key := translation]> (cache (self st))
    /\ exists evs,
        log st3 = log st ++ evs
        /\ invoked evs = map TryEndpoint (pre ++ [e]).
Proof.
  intros Hnb Hk Hc Heps Hf He. apply truthy_true in Hnb.
  exists (stored key translation st2).
  split; [| split].
  - apply resolves_translate_text. eapply resolves_provider; eassumption.
  - destruct (stored_spec key translation st2) as [-> _].
    destruct (_try_endpoint_spec _ _ _ _ _ He) as (b & x & _ & _ & -> & _).
    destruct (all_fail_spec _ _ _ _ Hf) as [-> _].
    simpl. rewrite throttled_cache. reflexivity.
  - eapply provider_log; eassumption.
Qed.

(** [translate_text] raises on a text of which it cannot compute the key,
    and only then. *)
Lemma translate_text_returns_or_raises chinese_text st :
  (exists out st', translate_text chinese_text st = (Ret out, st'))
  \/ (truthy (strip chinese_text) = true
      /\ exists e, _get_cache_key (strip chinese_text) = Raise e
                   /\ translate_text chinese_text st = (Raise e, st)).
Proof.
  pose proof (translate_text_resolves chinese_text st) as H.
  destruct (translate_text chinese_text st) as [r st']. simpl in H.
  destruct H; try (left; eexists _, _; reflexivity).
  right. split; [assumption |]. eexists. split; [eassumption | reflexivity].
Qed.

(** C3: on a cache miss for a text that is not blank ([key] is the key
    [_get_cache_key] computes for it, and the cache does not hold it), if
    every configured endpoint fails and the googletrans fallback fails
    too, then [translate_text] returns a failure (label "failed") after
    invoking all of them, and the cache, in memory and in its file, is as
    before. The call that follows for the same text is therefore not
    answered from the cache: it invokes the endpoints again from the first
    one, either all of them and the fallback, or up to the first that now
    succeeds. *)
Theorem failure_is_not_cached chinese_text st key st1 msg st2 :
  strip chinese_text <> [] ->
  _get_cache_key (strip chinese_text) = Ret key ->
  cache (self st) !! key = None ->
  all_fail (strip chinese_text) (api_endpoints (self st)) (throttled key st) st1 ->
  _try_googletrans_fallback (strip chinese_text) st1 = (Ret (false, msg), st2) ->
  translate_text chinese_text st
  = (Ret (false, msg_all_failed (strip chinese_text), u "failed"), st2)
  /\ cache (self st2) = cache (self st)
  /\ file (world st2) = file (world st)
  /\ (exists evs,
        log st2 = log st ++ evs
        /\ invoked evs = map TryEndpoint (api_endpoints (self st))
                         ++ [CallGoogletrans (strip chinese_text)])
  /\ forall r st3,
      translate_text chinese_text st2 = (r, st3) ->
      exists evs,
        log st3 = log st2 ++ evs
        /\ (invoked evs = map TryEndpoint (api_endpoints (self st))
                          ++ [CallGoogletrans (strip chinese_text)]
            \/ exists pre e post,
                api_endpoints (self st) = pre ++ e :: post
                /\ invoked evs = map TryEndpoint (pre ++ [e])).
Proof.
  intros Hnb Hk Hc Hf Hg. apply truthy_true in Hnb.
  set (text := strip chinese_text) in *.
  destruct (exhausted_log _ _ _ _ _ _ _ Hf Hg) as [Hself2 Hlog].
  destruct (all_fail_spec _ _ _ _ Hf) as [Hself1 _].
  destruct (throttled_spec key st) as [[now Hself0] _].
  assert (Hsame : cache (self st2) = cache (self st)
                  /\ api_endpoints (self st2) = api_endpoints (self st)).
  { rewrite Hself2, Hself1, Hself0. split; reflexivity. }
  destruct Hsame as [Hcache Heps].
  split; [| split; [exact Hcache | split; [| split; [exact Hlog |]]]].
  - apply resolves_translate_text. eapply resolves_failed; eassumption.
  - rewrite (_try_googletrans_fallback_file _ _ _ _ Hg), (all_fail_file _ _ _ _ Hf).
    apply throttled_file.
  - intros r st3 H. apply translate_text_inv in H. fold text in H.
    inversion H as [Hb | e0 _ Hk' | key' v _ Hk' Hc'
                    | key' pre e post tr s1 s2 _ Hk' _ Heps' Hf' He'
                    | key' tr s1 s2 _ Hk' _ Hf' Hg'
                    | key' m s1 s2 _ Hk' _ Hf' Hg']; subst;
      try (fold text in Hk'; rewrite Hk in Hk'; injection Hk' as <-).
    + fold text in Hb. congruence.
    + fold text in Hk'. rewrite Hk in Hk'. discriminate.
    + rewrite Hcache in Hc'. congruence.
    + fold text in Hf', He'.
      destruct (provider_log _ _ _ _ _ _ _ _ Hf' He') as (evs & Hl & Hi).
      exists evs. split; [exact Hl |]. right. exists pre, e, post.
      split; [congruence | exact Hi].
    + fold text in Hf', Hg'. fold text.
      destruct (exhausted_log _ _ _ _ _ _ _ Hf' Hg') as [_ (evs & Hl & Hi)].
      destruct (stored_spec key tr s2) as [_ (evs' & Hl' & Hi')].
      exists (evs ++ CacheStore key tr :: evs'). split.
      * rewrite Hl', Hl, <- app_assoc. reflexivity.
      * left. unfold invoked in *. rewrite List.filter_app. simpl.
        rewrite Hi, Hi', app_nil_r, Heps. reflexivity.
    + fold text in Hf', Hg'.
      destruct (exhausted_log _ _ _ _ _ _ _ Hf' Hg') as [_ (evs & Hl & Hi)].
      exists evs. split; [exact Hl |]. left. rewrite <- Heps. exact Hi.
Qed.

(** ** The invariant of the cache *)

Lemma translate_text_cache_ok chinese_text st r st' :
  cache_ok st ->
  translate_text chinese_text st = (r, st') ->
  cache_ok st' /\
  forall translation label, r = Ret (true, translation, label) -> translation <> [].
Proof.
  unfold cache_ok. intros Hok H. apply translate_text_inv in H.
  inversion H as [Hb | e0 Hnb Hk | key v Hnb Hk Hc
                  | key pre e post tr s1 s2 Hnb Hk Hc Heps Hf He
                  | key tr s1 s2 Hnb Hk Hc Hf Hg
                  | key m s1 s2 Hnb Hk Hc Hf Hg]; subst.
  - split; [exact Hok | intros ? ? [=]].
  - split; [exact Hok | intros ? ? [=]].
  - split; [exact Hok |]. intros ? ? [= <- _]. exact (Hok _ _ Hc).
  - destruct (_try_endpoint_spec _ _ _ _ _ He) as (b & x & [= <- <-] & Hne & Hs2 & _).
    destruct (all_fail_spec _ _ _ _ Hf) as [Hs1 _].
    destruct (stored_spec key tr s2) as [-> _].
    specialize (Hne eq_refl). simpl in Hne.
    split; [| intros ? ? [= <- _]; exact Hne].
    simpl. apply map_Forall_insert_2; [exact Hne |].
    rewrite Hs2, Hs1, throttled_cache. exact Hok.
  - destruct (_try_googletrans_fallback_spec _ _ _ _ Hg)
      as (b & x & [= <- <-] & Hne & Hs2 & _).
    destruct (all_fail_spec _ _ _ _ Hf) as [Hs1 _].
    destruct (stored_spec key tr s2) as [-> _].
    destruct (Hne eq_refl) as [Hne' _]. simpl in Hne'.
    split; [| intros ? ? [= <- _]; exact Hne'].
    simpl. apply map_Forall_insert_2; [exact Hne' |].
    rewrite Hs2, Hs1, throttled_cache. exact Hok.
  - destruct (_try_googletrans_fallback_spec _ _ _ _ Hg)
      as (b & x & _ & _ & Hs2 & _).
    destruct (all_fail_spec _ _ _ _ Hf) as [Hs1 _].
    split; [| intros ? ? [=]].
    rewrite Hs2, Hs1, throttled_cache. exact Hok.
Qed.

Lemma batch_step_cache_ok len i text st r st' :
  cache_ok st -> batch_step len i text st = (r, st') -> cache_ok st'.
Proof.
  intros Hok H. unfold batch_step in H.
  destruct (negb (truthy (strip text))).
  - injection H as <- <-. exact Hok.
  - unfold bind at 1 in H.
    destruct (translate_text text st) as [r0 s0] eqn:E.
    destruct (translate_text_cache_ok _ _ _ _ Hok E) as [Hok0 _].
    destruct r0 as [[[success result] endpoint] | e].
    + destruct (_ <? _); injection H as <- <-; exact Hok0.
    + injection H as <- <-. exact Hok0.
Qed.

Lemma batch_loop_cache_ok len texts : forall i st r st',
  cache_ok st -> batch_loop len i texts st = (r, st') -> cache_ok st'.
Proof.
  induction texts as [| text rest IH]; intros i st r st' Hok H.
  - injection H as <- <-. exact Hok.
  - simpl in H. unfold bind at 1 in H.
    destruct (batch_step len i text st) as [r0 s0] eqn:E.
    pose proof (batch_step_cache_ok _ _ _ _ _ _ Hok E) as Hok0.
    destruct r0 as [item | e]; [| injection H as <- <-; exact Hok0].
    unfold bind at 1 in H.
    destruct (batch_loop len (S i) rest s0) as [r1 s1] eqn:E1.
    pose proof (IH _ _ _ _ Hok0 E1) as Hok1.
    destruct r1; injection H as <- <-; exact Hok1.
Qed.

Lemma clear_cache_self st r st' :
  clear_cache st = (r, st') -> self st' = with_cache ∅ (self st).
Proof.
  cbv beta iota zeta
    delta [clear_cache try_except bind path_exists os_remove next_disk emit
           get_self get_world update_self update_world ret raise].
  cbn [self world log file disk]. intros H.
  destruct (file (world st)) as [content |] eqn:Ef; cbn in H;
    [destruct (disk (world st)) as [| [| e] rest] eqn:Ed; cbn in H |];
    injection H as <- <-; reflexivity.
Qed.

(** C10: an adapter, and the fallback, report a success only with a
    translation that is not empty; so, from a state whose cached
    translations are all non-empty, every call of [translate_text], of
    [translate_batch] and of [clear_cache] leads to such a state again, and
    a successful [translate_text] (a cache hit among them) returns a
    non-empty translation. *)
Theorem cached_translations_non_empty st :
  cache_ok st ->
  (forall text e s translation s',
      _try_endpoint text e s = (Ret (true, translation), s') -> translation <> [])
  /\ (forall text s translation s',
      _try_googletrans_fallback text s = (Ret (true, translation), s') ->
      translation <> [])
  /\ (forall chinese_text r st',
      translate_text chinese_text st = (r, st') ->
      cache_ok st'
      /\ forall translation label,
          r = Ret (true, translation, label) -> translation <> [])
  /\ (forall text_list r st',
      translate_batch text_list st = (r, st') -> cache_ok st')
  /\ (forall r st', clear_cache st = (r, st') -> cache_ok st').
Proof.
  intros Hok. repeat split.
  - intros text e s tr s' H.
    destruct (_try_endpoint_spec _ _ _ _ _ H) as (b & x & [= <- <-] & Hne & _).
    exact (Hne eq_refl).
  - intros text s tr s' H.
    destruct (_try_googletrans_fallback_spec _ _ _ _ H)
      as (b & x & [= <- <-] & Hne & _).
    exact (proj1 (Hne eq_refl)).
  - eapply translate_text_cache_ok; eassumption.
  - eapply translate_text_cache_ok; eassumption.
  - intros text_list r st'. apply batch_loop_cache_ok, Hok.
  - intros r st' H. unfold cache_ok. rewrite (clear_cache_self _ _ _ H).
    apply map_Forall_empty.
Qed.

(** ** The anti-echo test *)

(** C6: when the translation the provider returned, stripped as the
    adapter strips it, equals the input text up to case, the MyMemory
    adapter and the googletrans fallback report a failure; and neither
    ever reports a success whose translation equals the text up to case. *)
Theorem echo_is_failure text raw :
  lower (strip raw) = lower text ->
  (forall endpoint_url st response st1,
      session_get endpoint_url
        [(u "q", text);
         (u "langpair", source_lang (self st) ++ u "|" ++ target_lang (self st))]
        (timeout (self st)) st = (Ret response, st1) ->
      mymemory_returned response raw ->
      _try_mymemory text endpoint_url st
      = (Ret (false, u "MyMemory failed: 200"), st1))
  /\ (forall st rest,
      googletrans (world st) = GtResult (Some (Some raw)) :: rest ->
      exists st1,
        _try_googletrans_fallback text st
        = (Ret (false, u "No translation returned"), st1))
  /\ (forall endpoint_url st translation st1,
      _try_mymemory text endpoint_url st = (Ret (true, translation), st1) ->
      lower translation <> lower text)
  /\ (forall st translation st1,
      _try_googletrans_fallback text st = (Ret (true, translation), st1) ->
      lower translation <> lower text).
Proof.
  intros Hecho.
  assert (Heq : str_eqb (lower (strip raw)) (lower text) = true).
  { unfold str_eqb. apply bool_decide_eq_true. exact Hecho. }
  split; [| split; [| split]].
  - intros endpoint_url st response st1 Hget
      (Hstatus & d & status & rd & Hjson & Hs & H200 & Hrd & Htt).
    unfold _try_mymemory. unfold bind at 1. unfold get_self at 1.
    rewrite (bind_run _ _ _ _ _ Hget). cbv zeta.
    rewrite Hstatus. change (200 =? 200) with true. cbv iota.
    unfold response_json. rewrite Hjson.
    cbv beta iota zeta delta [bind ret dict_get attr_strip from_option id].
    rewrite Hs.
    cbv beta iota zeta delta [bind ret dict_get attr_strip from_option id].
    rewrite H200, Hrd.
    cbv beta iota zeta delta [bind ret dict_get attr_strip from_option id].
    rewrite Htt.
    cbv beta iota zeta delta [bind ret dict_get attr_strip from_option id].
    rewrite Heq, andb_false_r. reflexivity.
  - intros st rest Hgt.
    unfold _try_googletrans_fallback, next_googletrans, bind, emit, get_world,
      update_world, ret.
    cbn [world googletrans]. rewrite Hgt.
    rewrite Heq. cbn [negb].
    destruct (truthy raw && truthy (strip raw)); eexists; reflexivity.
  - intros endpoint_url st translation st1 H.
    destruct (_try_mymemory_spec text endpoint_url _ _ _ H) as [_ HQ].
    exact (proj2 (HQ _ eq_refl eq_refl)).
  - intros st translation st1 H.
    destruct (_try_googletrans_fallback_spec _ _ _ _ H)
      as (b & x & [= <- <-] & HQ & _).
    exact (proj2 (HQ eq_refl)).
Qed.

(** ** translate_batch *)

Lemma batch_step_blank len i text st :
  whitespace_only text ->
  batch_step len i text st = (Ret (blank_item i text), st).
Proof.
  intros H. unfold batch_step. rewrite (strip_whitespace _ H). reflexivity.
Qed.

(** A turn on a text that is not blank is one call of [translate_text],
    followed by the pause when the text is not the last one. *)
Lemma batch_step_text len i text st success result endpoint st1 :
  strip text <> [] ->
  translate_text text st = (Ret (success, result, endpoint), st1) ->
  batch_step len i text st
  = (Ret {| BatchItem.index := Z.of_nat i;
            BatchItem.original := strip text;
            BatchItem.success := success;
            BatchItem.translation := if success then result else [];
            BatchItem.error := if success then [] else result;
            BatchItem.endpoint := endpoint |},
     if Z.of_nat i <? Z.of_nat len - 1
     then {| self := self st1; world := world st1; log := log st1 ++ [Sleep 100] |}
     else st1).
Proof.
  intros Hnb H. apply truthy_true in Hnb. unfold batch_step.
  rewrite Hnb. change (negb true) with false. cbv iota.
  rewrite (bind_run _ _ _ _ _ H). cbv iota beta.
  destruct (_ <? _); reflexivity.
Qed.

(** Only whitespace strips to nothing. *)

Lemma lstrip_split (s : str) :
  exists ws, s = ws ++ lstrip s /\ whitespace_only ws.
Proof.
  induction s as [| c s (ws & Hs & Hws)]; simpl.
  - exists []. split; [reflexivity | constructor].
  - destruct (isspace c) eqn:Hc.
    + exists (c :: ws). split; [simpl; congruence | constructor; assumption].
    + exists []. split; [reflexivity | constructor].
Qed.

Lemma lstrip_no_lead (s : str) : no_lead (lstrip s).
Proof.
  induction s as [| c s IH]; simpl; [exact I |].
  destruct (isspace c) eqn:Hc; [exact IH | exact Hc].
Qed.

Lemma rstrip_split (s : str) :
  exists ws, s = rstrip s ++ ws /\ whitespace_only ws.
Proof.
  unfold rstrip. destruct (lstrip_split (rev s)) as (ws & Hs & Hws).
  exists (rev ws). split.
  - rewrite <- rev_app_distr, <- Hs, rev_involutive. reflexivity.
  - unfold whitespace_only in *. apply Forall_rev. exact Hws.
Qed.

Lemma strip_nil_whitespace (s : str) : strip s = [] -> whitespace_only s.
Proof.
  unfold strip. intros H.
  destruct (rstrip_split (lstrip s)) as (ws & Hs & Hws).
  rewrite H in Hs. simpl in Hs.
  pose proof (lstrip_no_lead s) as Hn.
  assert (Hl : lstrip s = []).
  { destruct (lstrip s) as [| c a]; [reflexivity |].
    subst ws. inversion Hws as [| ? ? Hc _]. simpl in Hn. congruence. }
  destruct (lstrip_split s) as (ws' & Hs' & Hws').
  rewrite Hl, app_nil_r in Hs'. subst s. exact Hws'.
Qed.

Lemma truthy_strip_false (s : str) :
  truthy (strip s) = false <-> whitespace_only s.
Proof.
  split.
  - intros H. apply strip_nil_whitespace.
    destruct (strip s); [reflexivity | discriminate].
  - intros H. rewrite (strip_whitespace _ H). reflexivity.
Qed.

(** ** Texts that cannot be encoded *)

Lemma encodable_dec (s : str) : existsb is_surrogate s = false <-> encodable s.
Proof.
  unfold encodable. induction s as [| c s IH]; simpl.
  - split; [constructor | reflexivity].
  - rewrite orb_false_iff, IH. split.
    + intros [Hc Hs]. constructor; assumption.
    + intros H. inversion H; subst. split; assumption.
Qed.

Lemma encodable_key (s : str) :
  encodable s -> _get_cache_key s = Ret (MD5.hexdigest (utf8_encode s)).
Proof.
  intros H. apply encodable_dec in H.
  unfold _get_cache_key, encode_utf8. rewrite H. reflexivity.
Qed.

Lemma unencodable_key (s : str) :
  ~ encodable s -> _get_cache_key s = Raise UnicodeEncodeError.
Proof.
  intros H. unfold _get_cache_key, encode_utf8.
  destruct (existsb is_surrogate s) eqn:E; [reflexivity |].
  apply encodable_dec in E. contradiction.
Qed.

Lemma translate_text_encodable chinese_text st :
  encodable (strip chinese_text) ->
  exists out st', translate_text chinese_text st = (Ret out, st').
Proof.
  intros H.
  destruct (translate_text_returns_or_raises chinese_text st)
    as [Hret | (_ & e & Hk & _)]; [exact Hret |].
  rewrite (encodable_key _ H) in Hk. discriminate.
Qed.

Lemma translate_text_unencodable chinese_text st :
  ~ encodable (strip chinese_text) ->
  translate_text chinese_text st = (Raise UnicodeEncodeError, st).
Proof.
  intros H. apply resolves_translate_text, resolves_unencodable.
  - destruct (strip chinese_text); [| reflexivity].
    exfalso. apply H. constructor.
  - apply unencodable_key, H.
Qed.

Lemma batch_step_item len i text st out st1 :
  strip text <> [] ->
  translate_text text st = (Ret out, st1) ->
  batch_step len i text st = (Ret (text_item i text out), paused len i st1).
Proof.
  intros Hnb H. destruct out as [[success result] endpoint].
  exact (batch_step_text _ _ _ _ _ _ _ _ Hnb H).
Qed.

(** The loop runs through a list of texts that can be encoded. *)
Lemma batch_loop_run len texts : forall i st,
  Forall (fun text => encodable (strip text)) texts ->
  exists results st',
    batch_loop len i texts st = (Ret results, st')
    /\ batch_run len i texts st results st'.
Proof.
  induction texts as [| text rest IH]; intros i st Henc.
  - exists [], st. split; [reflexivity | constructor].
  - inversion Henc as [| ? ? Ht Hrest]; subst.
    destruct (truthy (strip text)) eqn:Hnb.
    + apply truthy_true in Hnb.
      destruct (translate_text_encodable text st Ht) as (out & st1 & E).
      destruct (IH (S i) (paused len i st1) Hrest) as (items & st' & E1 & Hrun).
      exists (text_item i text out :: items), st'. split.
      * simpl. rewrite (bind_run _ _ _ _ _ (batch_step_item _ _ _ _ _ _ Hnb E)).
        rewrite (bind_run _ _ _ _ _ E1). reflexivity.
      * eapply batch_run_text; eassumption.
    + apply truthy_strip_false in Hnb.
      destruct (IH (S i) st Hrest) as (items & st' & E1 & Hrun).
      exists (blank_item i text :: items), st'. split.
      * simpl. rewrite (bind_run _ _ _ _ _ (batch_step_blank len i text st Hnb)).
        rewrite (bind_run _ _ _ _ _ E1). reflexivity.
      * apply batch_run_blank; assumption.
Qed.

(** It raises when it comes to a text that cannot be encoded. *)
Lemma batch_loop_raises len texts : forall i st,
  Exists (fun text => ~ encodable (strip text)) texts ->
  (batch_loop len i texts st).1 = Raise UnicodeEncodeError.
Proof.
  induction texts as [| text rest IH]; intros i st Hex;
    [inversion Hex |].
  simpl. unfold bind at 1.
  destruct (truthy (strip text)) eqn:Hnb.
  - apply truthy_true in Hnb.
    destruct (encodable_dec (strip text)) as [Hd _].
    destruct (existsb is_surrogate (strip text)) eqn:Es.
    + assert (Hne : ~ encodable (strip text)).
      { intros Hc. apply encodable_dec in Hc. congruence. }
      unfold batch_step. rewrite (proj2 (truthy_true _) Hnb).
      change (negb true) with false. cbv iota.
      unfold bind at 1. rewrite (translate_text_unencodable text st Hne).
      reflexivity.
    + specialize (Hd eq_refl).
      destruct (translate_text_encodable text st Hd) as (out & st1 & E).
      rewrite (batch_step_item _ _ _ _ _ _ Hnb E).
      inversion Hex as [? ? Hhd | ? ? Htl]; subst; [contradiction |].
      unfold bind at 1. specialize (IH (S i) (paused len i st1) Htl).
      destruct (batch_loop len (S i) rest (paused len i st1)) as [[items | e] s2];
        simpl in IH; [discriminate | injection IH as ->; reflexivity].
  - pose proof (proj1 (truthy_strip_false text) Hnb) as Hw.
    rewrite (batch_step_blank len i text st Hw).
    inversion Hex as [? ? Hhd | ? ? Htl]; subst.
    + exfalso. apply Hhd. rewrite (strip_whitespace _ Hw). constructor.
    + unfold bind at 1. specialize (IH (S i) st Htl).
      destruct (batch_loop len (S i) rest st) as [[items | e] s2];
        simpl in IH; [discriminate | injection IH as ->; reflexivity].
Qed.

(** What a run appends: one item per text, in order. *)
Lemma batch_run_items len i texts st results st' :
  batch_run len i texts st results st' ->
  length results = length texts
  /\ forall j text,
      texts !! j = Some text ->
      exists item,
        results !! j = Some item
        /\ BatchItem.index item = Z.of_nat (i + j)
        /\ BatchItem.original item
           = (if truthy (strip text) then strip text else text)
        /\ (whitespace_only text -> item = blank_item (i + j) text).
Proof.
  induction 1 as [i st | i text rest st items st' Hw _ [IHlen IH]
                  | i text rest st out st1 items st' Hnb Ht _ [IHlen IH]].
  - split; [reflexivity | intros j text [=]].
  - split; [simpl; congruence |].
    intros [| j] t Hj; simpl in Hj.
    + injection Hj as <-. exists (blank_item i text). rewrite Nat.add_0_r.
      rewrite (strip_whitespace _ Hw). repeat split.
    + destruct (IH j t Hj) as (it & Hl & Hi & Ho & Hb).
      exists it. replace (i + S j)%nat with (S i + j)%nat by lia.
      repeat split; assumption.
  - split; [simpl; congruence |].
    intros [| j] t Hj; simpl in Hj.
    + injection Hj as <-. exists (text_item i text out). rewrite Nat.add_0_r.
      destruct out as [[success result] endpoint]. simpl.
      rewrite (proj2 (truthy_true _) Hnb). repeat split.
      intros Hw. rewrite (strip_whitespace _ Hw) in Hnb. congruence.
    + destruct (IH j t Hj) as (it & Hl & Hi & Ho & Hb).
      exists it. replace (i + S j)%nat with (S i + j)%nat by lia.
      repeat split; assumption.
Qed.

(** A run on blank texts only leaves the state as it is. *)
Lemma batch_run_blanks len i texts st results st' :
  batch_run len i texts st results st' ->
  Forall whitespace_only texts -> st' = st.
Proof.
  induction 1 as [i st | i text rest st items st' Hw _ IH
                  | i text rest st out st1 items st' Hnb Ht _ IH];
    intros Hall.
  - reflexivity.
  - inversion Hall; subst. auto.
  - inversion Hall as [| ? ? Hw _]; subst.
    rewrite (strip_whitespace _ Hw) in Hnb. congruence.
Qed.

(** C7, as the code has it: on a list of texts that can all be encoded in
    UTF-8, [translate_batch] returns one item per input, in the order of
    the inputs, the item at position [i] carrying the index [i] and the
    text of input [i] (stripped unless blank). The run is the one
    [batch_run] describes: the item of a blank input is the failure item
    (success false, endpoint "none") and the state stays as it is across
    it (no cache lookup, no wait, no adapter invoked, so that a list of
    blank inputs leaves the state it started from), and the item of any
    other input is built from the outcome of [translate_text] on it, in
    the state the inputs before it have led to. On a list with a text
    that holds a lone surrogate, [translate_batch] raises
    [UnicodeEncodeError] and returns no item at all. *)
Theorem translate_batch_items text_list st :
  (Forall (fun text => encodable (strip text)) text_list ->
   exists results st',
     translate_batch text_list st = (Ret results, st')
     /\ length results = length text_list
     /\ (forall i text,
           text_list !! i = Some text ->
           exists item,
             results !! i = Some item
             /\ BatchItem.index item = Z.of_nat i
             /\ BatchItem.original item
                = (if truthy (strip text) then strip text else text)
             /\ (whitespace_only text ->
                 item = blank_item i text
                 /\ BatchItem.success item = false
                 /\ BatchItem.endpoint item = u "none"))
     /\ batch_run (length text_list) 0 text_list st results st'
     /\ (Forall whitespace_only text_list -> st' = st))
  /\ (Exists (fun text => ~ encodable (strip text)) text_list ->
      (translate_batch text_list st).1 = Raise UnicodeEncodeError).
Proof.
  split.
  - intros Henc.
    destruct (batch_loop_run (length text_list) text_list 0 st Henc)
      as (results & st' & E & Hrun).
    destruct (batch_run_items _ _ _ _ _ _ Hrun) as [Hlen Hitems].
    exists results, st'. split; [exact E |]. split; [exact Hlen |].
    split; [| split; [exact Hrun | exact (batch_run_blanks _ _ _ _ _ _ Hrun)]].
    intros i text Hi. destruct (Hitems i text Hi) as (item & Hr & Hx & Ho & Hb).
    exists item. repeat split; try assumption;
      rewrite (Hb H); reflexivity.
  - apply batch_loop_raises.
Qed.

(** ** The retrying session *)

Ltac send_step :=
  cbv beta iota zeta
    delta [bind ret raise emit next_reply get_world update_world];
  cbn [self world log net].

Lemma urlopen_answer retries rt req st response rest :
  net (world st) = Answer response :: rest ->
  is_retry rt req (Resp.status_code response) = false ->
  urlopen retries rt req st = (Ret response, sent req rest st).
Proof.
  intros Hnet Hno.
  destruct retries; simpl; send_step; rewrite Hnet; send_step;
    rewrite Hno; reflexivity.
Qed.

Lemma urlopen_retry retries rt req st response rest :
  net (world st) = Answer response :: rest ->
  is_retry rt req (Resp.status_code response) = true ->
  urlopen (S retries) rt req st = urlopen retries rt req (sent req rest st).
Proof.
  intros Hnet Hyes. simpl. send_step. rewrite Hnet. send_step.
  rewrite Hyes. reflexivity.
Qed.

Lemma urlopen_exhausted rt req st response rest :
  net (world st) = Answer response :: rest ->
  is_retry rt req (Resp.status_code response) = true ->
  urlopen 0 rt req st = (Raise RetryError, sent req rest st).
Proof.
  intros Hnet Hyes. simpl. send_step. rewrite Hnet. send_step.
  rewrite Hyes. reflexivity.
Qed.

Lemma net_sent req rest st : net (world (sent req rest st)) = rest.
Proof. reflexivity. Qed.

Lemma is_retry_503 n endpoint_url params timeout :
  is_retry (_create_session n) (GET endpoint_url params timeout) 503 = true.
Proof. reflexivity. Qed.

Lemma is_retry_200 n endpoint_url params timeout :
  is_retry (_create_session n) (GET endpoint_url params timeout) 200 = false.
Proof. reflexivity. Qed.

(** A call sends the request at least once and at most [retries + 1]
    times. *)
Lemma urlopen_log retries rt req : forall st r st',
  urlopen retries rt req st = (r, st') ->
  exists k, (1 <= k <= S retries)%nat
            /\ log st' = log st ++ repeat (HttpSend req) k.
Proof.
  induction retries as [| n IH]; intros st r st' H; simpl in H;
    cbv beta iota zeta
      delta [bind ret raise emit next_reply get_world update_world] in H;
    cbn [self world log net] in H;
    destruct (net (world st)) as [| [response | e] rest];
    cbv beta iota zeta in H;
    try destruct (is_retry rt req (Resp.status_code response));
    try (injection H as <- <-; exists 1%nat; split; [lia | reflexivity]);
    apply IH in H; destruct H as (k & Hk & Hl); simpl in Hl;
    exists (S k); (split; [lia |]);
    rewrite Hl, <- app_assoc; reflexivity.
Qed.

(** C5, as the code has it: [max_retries = 3] is urllib3's [Retry.total],
    the number of retries after the first request. On the statuses 503,
    503, 200 the session returns the 200 response, with the third request.
    After three 503 it sends a fourth request: a 200 there is returned,
    and a fourth 503 raises the error, after exactly four requests. No
    call sends more than four requests. *)
Theorem session_retries st endpoint_url params timeout r1 r2 r3 :
  session (self st) = _create_session 3 ->
  Resp.status_code r1 = 503 ->
  Resp.status_code r2 = 503 ->
  Resp.status_code r3 = 503 ->
  (forall ok rest,
      Resp.status_code ok = 200 ->
      net (world st) = Answer r1 :: Answer r2 :: Answer ok :: rest ->
      exists st',
        session_get endpoint_url params timeout st = (Ret ok, st')
        /\ log st' = log st ++ repeat (HttpSend (GET endpoint_url params timeout)) 3
        /\ net (world st') = rest)
  /\ (forall ok rest,
      Resp.status_code ok = 200 ->
      net (world st) = Answer r1 :: Answer r2 :: Answer r3 :: Answer ok :: rest ->
      exists st',
        session_get endpoint_url params timeout st = (Ret ok, st')
        /\ log st' = log st ++ repeat (HttpSend (GET endpoint_url params timeout)) 4
        /\ net (world st') = rest)
  /\ (forall r4 rest,
      Resp.status_code r4 = 503 ->
      net (world st) = Answer r1 :: Answer r2 :: Answer r3 :: Answer r4 :: rest ->
      exists st',
        session_get endpoint_url params timeout st = (Raise RetryError, st')
        /\ log st' = log st ++ repeat (HttpSend (GET endpoint_url params timeout)) 4
        /\ net (world st') = rest)
  /\ (forall r st',
      session_get endpoint_url params timeout st = (r, st') ->
      exists k, (1 <= k <= 4)%nat
                /\ log st' = log st
                             ++ repeat (HttpSend (GET endpoint_url params timeout)) k).
Proof.
  intros Hs H1 H2 H3.
  assert (Hrun : session_get endpoint_url params timeout st
                 = urlopen 3 (_create_session 3)
                     (GET endpoint_url params timeout) st).
  { unfold session_get, bind, get_self. rewrite Hs. reflexivity. }
  rewrite Hrun.
  pose proof (is_retry_503 3 endpoint_url params timeout) as Hyes.
  pose proof (is_retry_200 3 endpoint_url params timeout) as Hno.
  split; [| split; [| split]].
  - intros ok rest Hok Hnet.
    rewrite (urlopen_retry _ _ _ _ r1 _ Hnet) by (rewrite H1; exact Hyes).
    rewrite (urlopen_retry _ _ _ _ r2 (Answer ok :: rest) (net_sent _ _ _))
      by (rewrite H2; exact Hyes).
    rewrite (urlopen_answer _ _ _ _ ok rest (net_sent _ _ _)) by (rewrite Hok; exact Hno).
    eexists. split; [reflexivity |]. simpl. rewrite <- !app_assoc. auto.
  - intros ok rest Hok Hnet.
    rewrite (urlopen_retry _ _ _ _ r1 _ Hnet) by (rewrite H1; exact Hyes).
    rewrite (urlopen_retry _ _ _ _ r2 _ (net_sent _ _ _)) by (rewrite H2; exact Hyes).
    rewrite (urlopen_retry _ _ _ _ r3 (Answer ok :: rest) (net_sent _ _ _))
      by (rewrite H3; exact Hyes).
    rewrite (urlopen_answer _ _ _ _ ok rest (net_sent _ _ _)) by (rewrite Hok; exact Hno).
    eexists. split; [reflexivity |]. simpl. rewrite <- !app_assoc. auto.
  - intros r4 rest H4 Hnet.
    rewrite (urlopen_retry _ _ _ _ r1 _ Hnet) by (rewrite H1; exact Hyes).
    rewrite (urlopen_retry _ _ _ _ r2 _ (net_sent _ _ _)) by (rewrite H2; exact Hyes).
    rewrite (urlopen_retry _ _ _ _ r3 (Answer r4 :: rest) (net_sent _ _ _))
      by (rewrite H3; exact Hyes).
    rewrite (urlopen_exhausted _ _ _ r4 rest (net_sent _ _ _)) by (rewrite H4; exact Hyes).
    eexists. split; [reflexivity |]. simpl. rewrite <- !app_assoc. auto.
  - intros r st' H. exact (urlopen_log _ _ _ _ _ _ H).
Qed.

(** C5 as stated fails: after the statuses 503, 503, 503 a fourth request
    is put on the wire, and a 200 answered to it is returned. *)
Lemma fourth_request_is_sent :
  requests_sent
    (log (session_get (u "https://lingva.ml/api/v1/zh/vi/x") [] 10
            (demo_state [Answer busy_response; Answer busy_response;
                         Answer busy_response])).2) = 4%nat
  /\ (session_get (u "https://lingva.ml/api/v1/zh/vi/x") [] 10
        (demo_state [Answer busy_response; Answer busy_response;
                     Answer busy_response;
                     Answer (libretranslate_response (u "xin chào"))])).1
     = Ret (libretranslate_response (u "xin chào")).
Proof. split; vm_compute; reflexivity. Qed.

(** ** clear_cache and get_cache_stats *)

Lemma get_cache_stats_run st :
  get_cache_stats st
  = (Ret {| CacheStats.total_entries := size (cache (self st));
            CacheStats.cache_file_size_bytes :=
              from_option length 0%nat (file (world st));
            CacheStats.cache_file_exists :=
              bool_decide (is_Some (file (world st))) |}, st).
Proof.
  cbv beta iota zeta
    delta [get_cache_stats bind path_exists path_getsize get_self get_world ret].
  destruct (file (world st)) eqn:Ef; cbn; rewrite ?Ef; reflexivity.
Qed.

Lemma clear_cache_run st :
  exists st1,
    clear_cache st = (Ret (size (cache (self st))), st1)
    /\ self st1 = with_cache ∅ (self st)
    /\ file (world st1)
       = if removal_refused (world st) then file (world st) else None.
Proof.
  cbv beta iota zeta
    delta [removal_refused clear_cache try_except bind path_exists os_remove
           next_disk emit get_self get_world update_self update_world ret
           raise].
  cbn [self world log file disk].
  destruct (file (world st)) as [content |] eqn:Ef; cbn;
    [destruct (disk (world st)) as [| [| e] rest] eqn:Ed; cbn |];
    eexists; (split; [reflexivity |]); (split; [reflexivity |]);
    first [reflexivity | exact Ef].
Qed.

(** C8, as the code has it: [clear_cache] on a cache of N entries returns
    N and leaves an empty mapping, and [get_cache_stats] then reports 0
    entries. The cache file is removed, and reported as not existing,
    unless the disk refuses the removal: the error is swallowed, the file
    stays and is reported as existing. *)
Theorem clear_cache_empties st :
  exists st1 stats st2,
    clear_cache st = (Ret (size (cache (self st))), st1)
    /\ cache (self st1) = ∅
    /\ get_cache_stats st1 = (Ret stats, st2)
    /\ CacheStats.total_entries stats = 0%nat
    /\ CacheStats.cache_file_exists stats = removal_refused (world st)
    /\ (removal_refused (world st) = false -> file (world st1) = None).
Proof.
  destruct (clear_cache_run st) as (st1 & Hrun & Hself & Hfile).
  eexists st1, _, st1. split; [exact Hrun |].
  split; [rewrite Hself; reflexivity |].
  split; [apply get_cache_stats_run |].
  cbn [CacheStats.total_entries CacheStats.cache_file_exists].
  rewrite Hself, Hfile. split; [reflexivity |]. split.
  - unfold removal_refused.
    destruct (file (world st)) as [content |]; [| reflexivity].
    destruct (disk (world st)) as [| [| e] rest]; reflexivity.
  - intros ->. reflexivity.
Qed.

(** C8 as stated fails when the removal of the file is refused: the error
    is logged and swallowed, the file stays, and [get_cache_stats] reports
    that it exists. *)
Lemma clear_cache_keeps_locked_file :
  (clear_cache locked_state).1 = Ret 1%nat
  /\ (get_cache_stats (clear_cache locked_state).2).1
     = Ret {| CacheStats.total_entries := 0;
              CacheStats.cache_file_size_bytes := 2;
              CacheStats.cache_file_exists := true |}.
Proof. split; vm_compute; reflexivity. Qed.
End TranslationAPIHandler.

(** ** The handler at work *)

Example md5_empty : MD5.hexdigest [] = u "d41d8cd98f00b204e9800998ecf8427e".
Proof. vm_compute. reflexivity. Qed.

Example md5_abc :
  MD5.hexdigest (utf8_encode (u "abc")) = u "900150983cd24fb0d6963f7d28e17f72".
Proof. vm_compute. reflexivity. Qed.

Example md5_two_blocks :
  MD5.hexdigest (repeat 97%N 56) = u "3b0c8ac703f828b04c6c197006d17218".
Proof. vm_compute. reflexivity. Qed.

Example cache_key_nihao :
  _get_cache_key (u "你好") = Ret (u "7eca689f0d3389d9dea66ae112e5cfd7").
Proof. vm_compute. reflexivity. Qed.

Example cache_key_surrogate :
  _get_cache_key [0xDC80%N] = Raise UnicodeEncodeError.
Proof. reflexivity. Qed.

Example quote_nihao :
  quote (u "你好 a/b~_.-!") = Ret (u "%E4%BD%A0%E5%A5%BD%20a/b~_.-%21").
Proof. vm_compute. reflexivity. Qed.

Example strip_ideographic_space : strip (u "　 你 好 ") = u "你 好".
Proof. vm_compute. reflexivity. Qed.

Example json_dumps_one :
  json_dumps {[ u "k" := u "v" ]} = u "{" ++ [10%N] ++ u "  " ++ [34%N]
    ++ u "k" ++ [34%N] ++ u ": " ++ [34%N] ++ u "v" ++ [34%N] ++ [10%N] ++ u "}".
Proof. vm_compute. reflexivity. Qed.

(** The batch of the specification: blank, text, blank. *)
Example batch_blank_text_blank :
  (translate_batch ascii_lower [[]; u "你好"; u "  "]
     (demo_state [Answer (mymemory_response (u "xin chào"))])).1
  = Ret [ blank_item 0 [];
          {| BatchItem.index := 1; BatchItem.original := u "你好";
             BatchItem.success := true; BatchItem.translation := u "xin chào";
             BatchItem.error := []; BatchItem.endpoint := u "MyMemory Free API" |};
          blank_item 2 (u "  ") ].
Proof. vm_compute. reflexivity. Qed.

(** ** The properties on concrete runs *)

Lemma translate_text_twice_witness :
  let st := demo_state [Answer (mymemory_response (u "xin chào"))] in
  let st1 := (translate_text ascii_lower (u " 你好 ") st).2 in
  translate_text ascii_lower (u " 你好 ") st
  = (Ret (true, u "xin chào", u "MyMemory Free API"), st1)
  /\ exists key st2,
      _get_cache_key (strip (u " 你好 ")) = Ret key
      /\ translate_text ascii_lower (u " 你好 ") st1
         = (Ret (true, u "xin chào", u "cache"), st2)
      /\ world st2 = world st1
      /\ self st2 = self st1
      /\ log st2 = log st1 ++ [CacheLookup key].
Proof.
  intros st st1.
  assert (Hnb : strip (u " 你好 ") <> []) by (vm_compute; discriminate).
  assert (H : translate_text ascii_lower (u " 你好 ") st
              = (Ret (true, u "xin chào", u "MyMemory Free API"), st1))
    by (vm_compute; reflexivity).
  split; [exact H |].
  exact (translate_text_twice ascii_lower _ _ _ _ _ Hnb H).
Defined.

Lemma equal_trimmed_same_entry_witness :
  let st := demo_state [Answer (mymemory_response (u "xin chào"))] in
  let st1 := (translate_text ascii_lower (u " 你好 ") st).2 in
  strip (u " 你好 ") = strip (u "你好　")
  /\ _get_cache_key (strip (u " 你好 ")) = _get_cache_key (strip (u "你好　"))
  /\ exists key,
      _get_cache_key (strip (u "你好　")) = Ret key
      /\ cache (self st1) !! key = Some (u "xin chào")
      /\ translate_text ascii_lower (u "你好　") st1
         = (Ret (true, u "xin chào", u "cache"), looked_up key st1).
Proof.
  intros st st1.
  assert (Heq : strip (u " 你好 ") = strip (u "你好　"))
    by (vm_compute; reflexivity).
  assert (H : translate_text ascii_lower (u " 你好 ") st
              = (Ret (true, u "xin chào", u "MyMemory Free API"), st1))
    by (vm_compute; reflexivity).
  split; [exact Heq |].
  exact (equal_trimmed_same_entry ascii_lower _ _ _ _ _ _ Heq H).
Defined.

Lemma translate_text_blank_witness :
  whitespace_only (u " 　 ")
  /\ translate_text ascii_lower (u " 　 ") saved_state
     = (Ret (false, msg_empty_input, u "none"), saved_state).
Proof.
  assert (H : whitespace_only (u " 　 ")) by (repeat constructor).
  split; [exact H |].
  exact (translate_text_blank ascii_lower _ saved_state H).
Defined.

Lemma first_success_wins_witness :
  let text := u "你好" in
  let st :=
    demo_state [Answer busy_response; Answer busy_response;
                Answer busy_response; Answer busy_response;
                Answer (libretranslate_response (u "xin chào"));
                Answer (libretranslate_response (u "chào bạn"))] in
  exists st3,
    translate_text ascii_lower text st
    = (Ret (true, u "xin chào", u "LibreTranslate Germany"), st3)
    /\ cache (self st3)
       = <[u "7eca689f0d3389d9dea66ae112e5cfd7" := u "xin chào"]> (cache (self st))
    /\ exists evs,
        log st3 = log st ++ evs
        /\ invoked evs
           = map TryEndpoint (firstn 1 (api_endpoints (self st))
                              ++ firstn 1 (skipn 1 (api_endpoints (self st)))).
Proof.
  intros text st.
  set (key := u "7eca689f0d3389d9dea66ae112e5cfd7").
  assert (Hk : _get_cache_key (strip text) = Ret key) by (vm_compute; reflexivity).
  set (pre := firstn 1 (api_endpoints (self st))).
  set (st1 := default st (run_all_fail ascii_lower (strip text) pre (throttled key st))).
  assert (Hnb : strip text <> []) by (vm_compute; discriminate).
  assert (Hc : cache (self st) !! key = None) by (vm_compute; reflexivity).
  assert (Heps : api_endpoints (self st)
                 = pre ++ {| url := u "https://libretranslate.de/translate";
                             type := u "libretranslate";
                             description := u "LibreTranslate Germany" |}
                       :: skipn 2 (api_endpoints (self st)))
    by reflexivity.
  assert (Hf : all_fail ascii_lower (strip text) pre (throttled key st) st1)
    by (apply run_all_fail_sound; vm_compute; reflexivity).
  assert (He : _try_endpoint ascii_lower (strip text)
                 {| url := u "https://libretranslate.de/translate";
                    type := u "libretranslate";
                    description := u "LibreTranslate Germany" |} st1
               = (Ret (true, u "xin chào"),
                  (_try_endpoint ascii_lower (strip text)
                     {| url := u "https://libretranslate.de/translate";
                        type := u "libretranslate";
                        description := u "LibreTranslate Germany" |} st1).2))
    by (vm_compute; reflexivity).
  exact (first_success_wins ascii_lower text st key pre _ _ st1 _ _
           Hnb Hk Hc Heps Hf He).
Defined.

Lemma failure_is_not_cached_witness :
  let text := u "你好" in
  let st := demo_state [] in
  let key := u "7eca689f0d3389d9dea66ae112e5cfd7" in
  let st1 :=
    default st (run_all_fail ascii_lower (strip text) (api_endpoints (self st))
                  (throttled key st)) in
  let st2 := (_try_googletrans_fallback ascii_lower (strip text) st1).2 in
  translate_text ascii_lower text st
  = (Ret (false, msg_all_failed (strip text), u "failed"), st2)
  /\ cache (self st2) = cache (self st)
  /\ file (world st2) = file (world st)
  /\ requests_sent (log st2) = 16%nat.
Proof.
  intros text st key st1 st2.
  assert (Hnb : strip text <> []) by (vm_compute; discriminate).
  assert (Hk : _get_cache_key (strip text) = Ret key) by (vm_compute; reflexivity).
  assert (Hc : cache (self st) !! key = None) by (vm_compute; reflexivity).
  assert (Hf : all_fail ascii_lower (strip text) (api_endpoints (self st))
                 (throttled key st) st1)
    by (apply run_all_fail_sound; vm_compute; reflexivity).
  assert (Hg : _try_googletrans_fallback ascii_lower (strip text) st1
               = (Ret (false, u "googletrans not installed"), st2))
    by (vm_compute; reflexivity).
  destruct (failure_is_not_cached ascii_lower text st key st1 _ st2
              Hnb Hk Hc Hf Hg)
    as (Hrun & Hcache & Hfile & _).
  split; [exact Hrun |]. split; [exact Hcache |]. split; [exact Hfile |].
  vm_compute. reflexivity.
Defined.

Lemma cached_translations_non_empty_witness :
  cache_ok saved_state
  /\ cache_ok (translate_text ascii_lower (u "中国")
                 (demo_state [Answer (mymemory_response (u "Trung Quốc"))])).2
  /\ cache_ok (translate_batch ascii_lower [u "你好"; u "中国"] saved_state).2.
Proof.
  assert (H : cache_ok saved_state).
  { apply map_Forall_singleton. discriminate. }
  assert (H0 : cache_ok (demo_state [Answer (mymemory_response (u "Trung Quốc"))])).
  { apply map_Forall_empty. }
  split; [exact H |]. split.
  - destruct (cached_translations_non_empty ascii_lower _ H0) as (_ & _ & Ht & _).
    destruct (translate_text ascii_lower (u "中国") _) as [r st'] eqn:E.
    exact (proj1 (Ht _ _ _ E)).
  - destruct (cached_translations_non_empty ascii_lower _ H)
      as (_ & _ & _ & Hb & _).
    destruct (translate_batch ascii_lower _ saved_state) as [r st'] eqn:E.
    exact (Hb _ _ _ E).
Defined.

Lemma echo_is_failure_witness :
  ascii_lower (strip (u " HELLO ")) = ascii_lower (u "Hello")
  /\ (_try_mymemory ascii_lower (u "Hello")
        (u "https://api.mymemory.translated.net/get")
        (demo_state [Answer (mymemory_response (u " HELLO "))])).1
     = Ret (false, u "MyMemory failed: 200")
  /\ exists st1,
      _try_googletrans_fallback ascii_lower (u "Hello")
        {| self := demo_handler;
           world := {| net := []; clock := []; disk := []; file := None;
                       googletrans := [GtResult (Some (Some (u " HELLO ")))] |};
           log := [] |}
      = (Ret (false, u "No translation returned"), st1).
Proof.
  assert (H : ascii_lower (strip (u " HELLO ")) = ascii_lower (u "Hello"))
    by (vm_compute; reflexivity).
  destruct (echo_is_failure ascii_lower _ _ H) as (Hm & Hg & _).
  split; [exact H |]. split.
  - erewrite Hm; [reflexivity | vm_compute; reflexivity |].
    split; [reflexivity |].
    eexists _, _, _. repeat split; reflexivity.
  - apply (Hg _ []). reflexivity.
Defined.

Lemma session_retries_witness :
  session (self (demo_state [])) = _create_session 3
  /\ Resp.status_code busy_response = 503
  /\ (session_get (u "https://lingva.ml/api/v1/zh/vi/x") [] 10
        (demo_state [Answer busy_response; Answer busy_response;
                     Answer (libretranslate_response (u "xin chào"))])).1
     = Ret (libretranslate_response (u "xin chào"))
  /\ exists st',
      session_get (u "https://lingva.ml/api/v1/zh/vi/x") [] 10
        (demo_state [Answer busy_response; Answer busy_response;
                     Answer busy_response; Answer busy_response;
                     Answer (libretranslate_response (u "xin chào"))])
      = (Raise RetryError, st')
      /\ log st' = repeat (HttpSend (GET (u "https://lingva.ml/api/v1/zh/vi/x") [] 10)) 4
      /\ net (world st') = [Answer (libretranslate_response (u "xin chào"))].
Proof.
  split; [reflexivity |]. split; [reflexivity |]. split.
  - destruct (session_retries
                (demo_state [Answer busy_response; Answer busy_response;
                             Answer (libretranslate_response (u "xin chào"))])
                (u "https://lingva.ml/api/v1/zh/vi/x") [] 10
                busy_response busy_response busy_response
                eq_refl eq_refl eq_refl eq_refl) as (H3 & _).
    destruct (H3 (libretranslate_response (u "xin chào")) [] eq_refl eq_refl)
      as (st' & -> & _).
    reflexivity.
  - destruct (session_retries
                (demo_state [Answer busy_response; Answer busy_response;
                             Answer busy_response; Answer busy_response;
                             Answer (libretranslate_response (u "xin chào"))])
                (u "https://lingva.ml/api/v1/zh/vi/x") [] 10
                busy_response busy_response busy_response
                eq_refl eq_refl eq_refl eq_refl) as (_ & _ & H4 & _).
    exact (H4 busy_response _ eq_refl eq_refl).
Defined.

Lemma clear_cache_empties_witness :
  removal_refused (world saved_state) = false
  /\ exists st1 stats st2,
      clear_cache saved_state = (Ret 1%nat, st1)
      /\ cache (self st1) = ∅
      /\ get_cache_stats st1 = (Ret stats, st2)
      /\ CacheStats.total_entries stats = 0%nat
      /\ CacheStats.cache_file_exists stats = false
      /\ file (world st1) = None.
Proof.
  split; [reflexivity |].
  destruct (clear_cache_empties saved_state)
    as (st1 & stats & st2 & H1 & H2 & H3 & H4 & H5 & H6).
  exists st1, stats, st2. repeat split; try assumption.
  exact (H6 eq_refl).
Defined.

Lemma translate_batch_items_witness :
  let text_list := [[]; u "你好"; u "  "] in
  let st := demo_state [Answer (mymemory_response (u "xin chào"))] in
  Forall (fun text => encodable (strip text)) text_list
  /\ exists results st',
      translate_batch ascii_lower text_list st = (Ret results, st')
      /\ length results = 3%nat
      /\ batch_run ascii_lower 3 0 text_list st results st'.
Proof.
  intros text_list st.
  assert (H : Forall (fun text => encodable (strip text)) text_list).
  { repeat constructor; vm_compute; repeat constructor. }
  split; [exact H |].
  destruct (proj1 (translate_batch_items ascii_lower text_list st) H)
    as (results & st' & Hrun & Hlen & _ & Hbatch & _).
  exists results, st'. repeat split; assumption.
Defined.

(** C7 as stated fails on a text that holds a lone surrogate: the first
    text is translated and cached, then the key of the second cannot be
    computed, and the batch returns no item. *)
Lemma translate_batch_raises_on_surrogate :
  let run :=
    translate_batch ascii_lower [u "你好"; [0xDC80%N]]
      (demo_state [Answer (mymemory_response (u "xin chào"))]) in
  run.1 = Raise UnicodeEncodeError
  /\ cache (self run.2) !! u "7eca689f0d3389d9dea66ae112e5cfd7"
     = Some (u "xin chào").
Proof. split; vm_compute; reflexivity. Qed.
